(** * jukebox: a shuffled playlist with an ad every few songs

    A shallow embedding of [src/jukebox/__main__.py] and the properties of
    its playlist assembler, duration estimator, cadence computation, total
    duration loop, playlist writer and selection flow.

    Conventions of the embedding:
    - a Python [int] is a [Z]; a list index or slice bound is a [Z] with
      Python's adjustment of negative and out-of-range bounds written out;
    - a [pathlib.Path] is its list of components plus a flag for the root;
    - a duration (a Python [float]) is a binary64 number, the primitive
      [float] with the machine's arithmetic; the rational number that a
      finite float stands for is used where the code turns a float into an
      integer;
    - a Python list that is mutated in place is threaded through the
      function that mutates it and handed back with the result;
    - opening and writing the playlist file may raise, as the file system
      of the run decides;
    - [while] loops take fuel: [None] means that the fuel ran out, and
      every statement that the code returns exhibits enough fuel. *)

From Stdlib Require Import ZArith QArith Qround Qabs Lia Lqa Permutation Ascii String.
From Stdlib Require Import DecimalString DecimalZ.
From Stdlib Require Import Floats.
From Stdlib Require Sorted.
From stdpp Require Import base list gmap strings.

Set Default Proof Using "Type".
Set Warnings "-inexact-float".
Local Open Scope Z_scope.

(** ** Paths *)

Module Path.

(** [anchored] is true for a path that starts at the root [/]. *)
Record t := Build { anchored : bool; parts : list string }.

#[global] Instance eq_dec : EqDecision t.
Proof. solve_decision. Defined.

(** [path.name]: the final component, empty when there is none. *)
Definition name (p : t) : string := default EmptyString (last (parts p)).

(** [path.parent]: the path without its final component; the root and
    the empty path are their own parents. *)
Definition parent (p : t) : t :=
  Build (anchored p) (removelast (parts p)).

(** [path / child] for a single component [child]. *)
Definition joinpath (p : t) (child : string) : t :=
  Build (anchored p) (parts p ++ [child]).

(** [str(path)]. *)
Definition str (p : t) : string :=
  if anchored p then ("/" +:+ String.concat "/" (parts p))%string
  else match parts p with
       | [] => "."%string
       | _ => String.concat "/" (parts p)
       end.

(** [path.relative_to(other)]: [None] stands for [ValueError]. *)
Fixpoint strip_prefix (pre l : list string) : option (list string) :=
  match pre, l with
  | [], _ => Some l
  | x :: pre', y :: l' => if decide (x = y) then strip_prefix pre' l' else None
  | _ :: _, [] => None
  end.

Definition relative_to (p other : t) : option t :=
  if decide (anchored p = anchored other)
  then Build false <$> strip_prefix (parts other) (parts p)
  else None.

End Path.

Abbreviation Path := Path.t.

(** ** The random source and [random.shuffle]

    [random.shuffle] is the standard library's in-place Fisher-Yates loop:
    for [i] from [len(x) - 1] down to [1], draw [j = randbelow(i + 1)] and
    exchange [x[i]] and [x[j]].  The generator is an explicit stream of raw
    draws and a cursor into it. *)

Record Random := MkRandom { entropy : nat → nat; cursor : nat }.

Definition randbelow (n : nat) (g : Random) : nat * Random :=
  ((entropy g (cursor g) mod n)%nat, MkRandom (entropy g) (S (cursor g))).

Section Shuffle.
Context {A : Type}.

(** [x[i], x[j] = x[j], x[i]]; both indices are in range wherever the
    shuffle uses it (an index out of range would raise [IndexError]). *)
Definition exchange (x : list A) (i j : nat) : list A :=
  match x !! i, x !! j with
  | Some xi, Some xj => <[j:=xi]> (<[i:=xj]> x)
  | _, _ => x
  end.

Fixpoint shuffle_from (i : nat) (g : Random) (x : list A) : Random * list A :=
  match i with
  | O => (g, x)
  | S i' =>
      let '(j, g') := randbelow (S i) g in
      shuffle_from i' g' (exchange x i j)
  end.

Definition shuffle (g : Random) (x : list A) : Random * list A :=
  shuffle_from (length x - 1)%nat g x.

(** [seq[start:stop]] with Python's adjustment of the two bounds. *)
Definition adjust_index (len k : Z) : Z :=
  if k <? 0 then Z.max 0 (k + len) else Z.min k len.

Definition slice (l : list A) (start stop : Z) : list A :=
  let len := Z.of_nat (length l) in
  let lo := adjust_index len start in
  let hi := adjust_index len stop in
  take (Z.to_nat (hi - lo)) (drop (Z.to_nat lo) l).
End Shuffle.

(** A generator for a list of [n] entries whose draws make the shuffle
    exchange the entries at [i] and [j], for [i < j < n], and leave every
    other entry where it is. *)
Definition swap_once (n i j : nat) : Random :=
  MkRandom (λ k, if decide ((n - 1 - k)%nat = j) then i else (n - 1 - k)%nat) 0.

(** ** The playlist assembler: [create_playlist] *)

(** [len(x)] as a Python integer. *)
Definition len {A} (l : list A) : Z := Z.of_nat (length l).

(** Truth value of [ad_file]: a path object is always true, an absent one
    ([None]) is false. *)
Definition truthy {A} (o : option A) : bool := bool_decide (is_Some o).

(** One pass of the body of the [while] loop, on the loop variables
    [(i, playlist)]: the chunk [tracks[i : i + songs_between_ads]] is added,
    then the ad [if ad_file and len(chunk) == songs_between_ads], and [i]
    moves on by [songs_between_ads]. *)
Definition loop_body (tracks : list Path) (ad_file : option Path)
    (songs_between_ads : Z) (st : Z * list Path) : Z * list Path :=
  let '(i, playlist) := st in
  let chunk := slice tracks i (i + songs_between_ads) in
  let playlist := playlist ++ chunk in
  let playlist :=
    match ad_file with
    | Some ad => if len chunk =? songs_between_ads then playlist ++ [ad] else playlist
    | None => playlist
    end in
  (i + songs_between_ads, playlist).

(** [while i < len(tracks): ...]; [None] when the fuel runs out before the
    condition turns false. *)
Fixpoint while_loop (fuel : nat) (tracks : list Path) (ad_file : option Path)
    (songs_between_ads : Z) (st : Z * list Path) : option (list Path) :=
  match fuel with
  | O => None
  | S fuel' =>
      if st.1 <? len tracks
      then while_loop fuel' tracks ad_file songs_between_ads
             (loop_body tracks ad_file songs_between_ads st)
      else Some st.2
  end.

(** The result of a call: the generator after the call, the caller's list
    as the call leaves it, and the returned playlist. *)
Record assembled := MkAssembled {
  rng_after : Random;
  tracks_after : list Path;
  playlist_of : list Path
}.

(** The statements after the shuffle: [i = 0], [playlist = []], the loop
    and the [return]. *)
Definition insert_ads (fuel : nat) (tracks : list Path) (ad_file : option Path)
    (songs_between_ads : Z) : option (list Path) :=
  while_loop fuel tracks ad_file songs_between_ads (0, []).

Definition create_playlist (fuel : nat) (g : Random) (tracks : list Path)
    (ad_file : option Path) (songs_between_ads : Z) : option assembled :=
  let '(g', tracks) := shuffle g tracks in
  MkAssembled g' tracks <$> insert_ads fuel tracks ad_file songs_between_ads.

(** The call returns [out]: some amount of fuel is enough. *)
Definition returns (g : Random) (tracks : list Path) (ad_file : option Path)
    (songs_between_ads : Z) (out : assembled) : Prop :=
  ∃ fuel, create_playlist fuel g tracks ad_file songs_between_ads = Some out.

(** The partition of the shuffled sequence in the words of the design:
    consecutive chunks of exactly [c] tracks, the final one possibly
    shorter; the ad is appended after each chunk of full size. *)
Fixpoint chunks_upto {A} (n c : nat) (l : list A) : list (list A) :=
  match n, l with
  | O, _ | _, [] => []
  | S n', _ :: _ => take c l :: chunks_upto n' c (drop c l)
  end.

Definition chunks {A} (c : nat) (l : list A) : list (list A) :=
  chunks_upto (length l) c l.

Definition with_ad {A} (c : nat) (ad : option A) (chunk : list A) : list A :=
  if decide (length chunk = c) then chunk ++ option_list ad else chunk.

Definition interleaved {A} (c : nat) (ad : option A) (l : list A) : list A :=
  concat (with_ad c ad <$> chunks c l).

(** The entries of a playlist other than the inserted ones: every entry but
    those that follow [c] entries kept in a row; [k] counts the entries
    kept since the last one left out. *)
Fixpoint without_ads {A} (c k : nat) (l : list A) : list A :=
  match l with
  | [] => []
  | x :: l' =>
      if decide (k = c) then without_ads c 0 l' else x :: without_ads c (S k) l'
  end.

(** The entries that are not inserted ads, for a cadence and an ad that may
    be absent (nothing is inserted then). *)
Definition non_ad_entries {A} (c : Z) (ad : option A) (playlist : list A) : list A :=
  match ad with
  | Some _ => without_ads (Z.to_nat c) 0 playlist
  | None => playlist
  end.

(** ** Python results *)

Inductive exn :=
| ZeroDivisionError
| ValueError
| OverflowError
| OSError
| UnicodeEncodeError.

Inductive result (A : Type) := Ok (a : A) | Raise (e : exn).
Arguments Ok {A} a.
Arguments Raise {A} e.

#[global] Instance result_bind : MBind result := λ A B f r,
  match r with
  | Ok a => f a
  | Raise e => Raise e
  end.

(** ** Floats *)

(** The rational number that a finite float stands for; an infinity and
    a NaN stand for none. *)
Definition exact (x : float) : option Q :=
  match Prim2SF x with
  | S754_zero _ => Some 0%Q
  | S754_finite s m e => Some (inject_Z (cond_Zopp s (Z.pos m)) * Qpower 2 e)%Q
  | S754_infinity _ => None
  | S754_nan => None
  end.

(** The integer nearest to a rational number, a tie going to the even
    one. *)
Definition round_half_even (x : Q) : Z :=
  let f := Qfloor x in
  match (x - inject_Z f ?= 1 # 2)%Q with
  | Lt => f
  | Gt => f + 1
  | Eq => if Z.even f then f else f + 1
  end.

(** [round(x)] of a float, an [int]: the number that [x] stands for,
    rounded half to even; [OverflowError] for an infinity, [ValueError] for
    a NaN. *)
Definition round (x : float) : result Z :=
  match exact x with
  | Some q => Ok (round_half_even q)
  | None => if is_nan x then Raise ValueError else Raise OverflowError
  end.

(** An [int] where a float is needed: the nearest float, a tie going to
    the even one, and [OverflowError] when that is beyond the largest
    float (from [2^1024 - 2^970] on). *)
Definition float_of_int (n : Z) : result float :=
  if Z.abs n <? 2 ^ 1024 - 2 ^ 970
  then Ok (SF2Prim (binary_normalize prec emax n 0 false))
  else Raise OverflowError.

(** [x / y] on floats. *)
Definition truediv (x y : float) : result float :=
  if (y =? 0)%float then Raise ZeroDivisionError else Ok (x / y)%float.

(** [n / y] for an [int] [n] and a float [y]. *)
Definition int_truediv (n : Z) (y : float) : result float :=
  x ← float_of_int n; truediv x y.

(** [x / n] for a float [x] and an [int] [n].  The float of an [int] is
    zero for the [int] 0 only, so the test for a zero divisor is made on
    [n]. *)
Definition truediv_int (x : float) (n : Z) : result float :=
  if n =? 0 then Raise ZeroDivisionError
  else y ← float_of_int n; Ok (x / y)%float.

(** [sum(durations)] for a list of floats: since Python 3.12, which the
    source needs for [typing.override], the interpreter adds floats with
    Neumaier's compensated summation.  The first item is added to the
    start value, the [int] 0; each further item [x] is added to the running
    sum and the rounding error of that addition to the compensation [c],
    which is added at the end if it is finite and not zero. *)
Definition neumaier (st : float * float) (x : float) : float * float :=
  let '(f_result, c) := st in
  let t := (f_result + x)%float in
  let c :=
    if (abs x <=? abs f_result)%float
    then (c + ((f_result - t) + x))%float
    else (c + ((x - t) + f_result))%float in
  (t, c).

Definition sum (durations : list float) : float :=
  match durations with
  | [] => 0%float
  | x :: rest =>
      let '(f_result, c) := fold_left neumaier rest ((0 + x)%float, 0%float) in
      if negb (c =? 0)%float && is_finite c then (f_result + c)%float
      else f_result
  end.

(** [x or 0] on floats: [0] for a zero of either sign. *)
Definition or_zero (x : float) : float := if (x =? 0)%float then 0%float else x.

(** ** Durations *)

Section Durations.
(** What [MutagenFile(p)] followed by [audio and audio.info] and
    [audio.info.length] comes to: an exception, a false [audio] or
    [audio.info], or the length in seconds. *)
Variable MutagenFile : Path → result (option float).

(** The body of the [for] loop of [get_average_duration]; [except
    Exception: continue] leaves [durations] as it is. *)
Definition sample (durations : list float) (p : Path) : list float :=
  match MutagenFile p with
  | Ok (Some length) => durations ++ [length]
  | Ok None => durations
  | Raise _ => durations
  end.

(** [sum(durations) / len(durations) if durations else 0]; the [int] 0
    of the [else] is the float 0 here, which [main] cannot tell from
    it. *)
Definition get_average_duration (paths : list Path) : result float :=
  let durations := fold_left sample paths [] in
  match durations with
  | [] => Ok 0%float
  | _ :: _ => truediv_int (sum durations) (len durations)
  end.

(** The loop of [main] that adds up the playlist's durations, from
    [total_duration = 0] on. *)
Definition add_duration (total_duration : float) (p : Path) : float :=
  match MutagenFile p with
  | Ok (Some length) => (total_duration + or_zero length)%float
  | Ok None => total_duration
  | Raise _ => total_duration
  end.

Definition total_duration (playlist : list Path) : float :=
  fold_left add_duration playlist 0%float.

(** The duration a track is credited with: the oracle's sample. *)
Definition duration_sample (p : Path) : option float :=
  match MutagenFile p with
  | Ok (Some length) => Some length
  | _ => None
  end.
End Durations.

(** [max(1, round((ad_every * 60) / avg_duration))], as [main] writes it in
    the call of [create_playlist] and again for the report. *)
Definition cadence (ad_every : Z) (avg_duration : float) : result Z :=
  quotient ← int_truediv (ad_every * 60) avg_duration;
  rounded ← round quotient;
  Ok (Z.max 1 rounded).

(** The [if avg_duration == 0: ... else: ...] of [main]. *)
Definition songs_between_ads (ad_every : Z) (avg_duration : float) : result Z :=
  if (avg_duration =? 0)%float then Ok 0 else cadence ad_every avg_duration.

(** ** Audio files *)

Definition AUDIO_EXTS : gset string :=
  {[ ".mp3"; ".ogg"; ".flac"; ".wav"; ".aac"; ".m4a"; ".opus" ]}%string.

(** [str.lower] on the letters [A] to [Z]; no other character has a lower
    case that occurs in [AUDIO_EXTS]. *)
Definition lower_ascii (c : Ascii.ascii) : Ascii.ascii :=
  let n := Ascii.nat_of_ascii c in
  if ((65 <=? n) && (n <=? 90))%nat then Ascii.ascii_of_nat (n + 32) else c.

Fixpoint lower (s : string) : string :=
  match s with
  | EmptyString => EmptyString
  | String c s' => String (lower_ascii c) (lower s')
  end.

(** [name[name.rfind('.'):]], when the name has a dot. *)
Fixpoint from_last_dot (s : string) : option string :=
  match s with
  | EmptyString => None
  | String c s' =>
      match from_last_dot s' with
      | Some r => Some r
      | None => if decide (c = "."%char) then Some s else None
      end
  end.

(** [path.suffix]: the final dot and what follows it, unless the dot is the
    first or the last character of the name. *)
Definition suffix (p : Path) : string :=
  match from_last_dot (Path.name p) with
  | Some r =>
      if decide (String.length r = String.length (Path.name p)) then EmptyString
      else if decide (String.length r = 1%nat) then EmptyString
      else r
  | None => EmptyString
  end.

Definition is_audio_file (path : Path) : bool :=
  bool_decide (lower (suffix path) ∈ AUDIO_EXTS).

(** The order of paths: that of their components, the root first. *)
Fixpoint parts_leb (a b : list string) : bool :=
  match a, b with
  | [], _ => true
  | _ :: _, [] => false
  | x :: a', y :: b' => if String.eqb x y then parts_leb a' b' else String.ltb x y
  end.

Definition path_key (p : Path) : list string :=
  (if Path.anchored p then ["/"%string] else []) ++ Path.parts p.

Definition path_leb (p q : Path) : bool := parts_leb (path_key p) (path_key q).

(** [sorted(paths)]: a stable sort. *)
Fixpoint insert_sorted (p : Path) (l : list Path) : list Path :=
  match l with
  | [] => [p]
  | q :: l' => if path_leb p q then p :: l else q :: insert_sorted p l'
  end.

Definition sorted (l : list Path) : list Path := foldr insert_sorted [] l.

(** The file system as the run sees it: what is where; the exception, if
    any, that opening a file for writing ends with; and the exception, if
    any, that writing a text to a file ends with, together with the part
    of the text that had reached the file ([OSError] for a file that cannot
    be written or a full disk, [UnicodeEncodeError] for a text that the
    file's encoding lacks). *)
Record FileSystem := MkFileSystem {
  path_exists : Path → bool;
  is_dir : Path → bool;
  is_file : Path → bool;
  iterdir : Path → list Path;
  open_raises : string → option exn;
  write_raises : string → string → option (exn * string)
}.

Definition get_audio_files (fs : FileSystem) (directory : Path) : list Path :=
  sorted (filter (λ p, is_file fs p && is_audio_file p) (iterdir fs directory)).

(** ** The interactive selector *)

(** What the terminal delivers to the running app: a key press, or the
    confirmation of the list item at a position. *)
Inductive ui_event := Key (key : string) | ListViewSelected (item : nat).

Module ListPicker.

Record t := Build {
  values : list string;
  selection : option string;
  instruction : string;
  running : bool
}.

(** [__init__]. *)
Definition init (instruction : string) (values : list string) : t :=
  Build values None instruction true.

(** [self.exit()]. *)
Definition exit (app : t) : t :=
  Build (values app) (selection app) (instruction app) false.

(** The label of the item is taken to show the value the item was made
    from, as it does for a value without markup. *)
Definition on_list_view_selected (app : t) (item : nat) : t :=
  match values app !! item with
  | Some label => exit (Build (values app) (Some label) (instruction app) (running app))
  | None => app
  end.

(** The handler of the source; the key bindings of the framework itself
    are not part of it. *)
Definition on_key (app : t) (key : string) : t :=
  if decide (key = "q"%string) then exit app else app.

Definition handle (app : t) (ev : ui_event) : t :=
  match ev with
  | Key key => on_key app key
  | ListViewSelected item => on_list_view_selected app item
  end.

(** [app.run()]: events are handled until the app exits; what is left of
    the input stays with the terminal.  [None]: the input ended and the
    app still waits. *)
Fixpoint run (app : t) (events : list ui_event) : option t * list ui_event :=
  match events with
  | [] => (None, [])
  | ev :: rest =>
      let app := handle app ev in
      if running app then run app rest else (Some app, rest)
  end.

End ListPicker.

(** ** The run: state, outcomes and the monad of [main] *)

(** What [main] prints. *)
Inductive message :=
| NoAudioFilesFound
| CouldNotCalculateAverage
| EstimatedTotal (total_duration : float)
| AdsEvery (songs_between_ads : Z) (avg_duration : float).

(** The stages of a run, as the log records them. *)
Inductive stage :=
| Select (instruction : string) (values : list string) (answer : option string)
| Scan (directory : Path)
| Estimate (paths : list Path)
| Assemble (songs_between_ads : Z)
| Total (playlist : list Path)
| Printed (msg : message)
| Opened (file : string)
| Written (file : string).

Record world := MkWorld {
  terminal : list ui_event;
  files : gmap string string;
  random : Random;
  log : list stage
}.

Inductive outcome (A : Type) :=
| Done (a : A)
| SystemExit (status : Z) (msg : string)
| Raised (e : exn)
| Blocked
| OutOfFuel.
Arguments Done {A} a.
Arguments SystemExit {A} status msg.
Arguments Raised {A} e.
Arguments Blocked {A}.
Arguments OutOfFuel {A}.

Definition M (A : Type) : Type := world → outcome A * world.

#[global] Instance M_ret : MRet M := λ A a w, (Done a, w).

#[global] Instance M_bind : MBind M := λ A B f m w,
  match m w with
  | (Done a, w') => f a w'
  | (SystemExit status msg, w') => (SystemExit status msg, w')
  | (Raised e, w') => (Raised e, w')
  | (Blocked, w') => (Blocked, w')
  | (OutOfFuel, w') => (OutOfFuel, w')
  end.

Definition record (s : stage) : M unit := λ w,
  (Done (), MkWorld (terminal w) (files w) (random w) (log w ++ [s])).

(** [parser.exit(status, message)]. *)
Definition parser_exit {A} (status : Z) (msg : string) : M A := λ w,
  (SystemExit status msg, w).

Definition lift {A} (r : result A) : M A := λ w,
  match r with
  | Ok a => (Done a, w)
  | Raise e => (Raised e, w)
  end.

Definition print (msg : message) : M unit := record (Printed msg).

(** The [print] of the estimated total: [seconds_to_hms] is applied to the
    total first, and its [int(seconds // 3600)] raises [ValueError] for a
    total that is infinite or not a number. *)
Definition print_total (total_duration : float) : M unit :=
  if is_finite total_duration then print (EstimatedTotal total_duration)
  else lift (Raise ValueError).

(** [select_value]: run the picker on the terminal's input and return its
    selection. *)
Definition select_value (instruction : string) (values : list string)
    : M (option string) := λ w,
  match ListPicker.run (ListPicker.init instruction values) (terminal w) with
  | (Some app, rest) =>
      (Done (ListPicker.selection app),
       MkWorld rest (files w) (random w)
         (log w ++ [Select instruction values (ListPicker.selection app)]))
  | (None, rest) => (Blocked, MkWorld rest (files w) (random w) (log w))
  end.

(** [(x,) = paths]. *)
Definition unpack_one (paths : list Path) : M Path :=
  match paths with
  | [x] => mret x
  | _ => lift (Raise ValueError)
  end.

(** The call of [create_playlist] with the run's generator. *)
Definition call_create_playlist (fuel : nat) (tracks : list Path)
    (ad_file : option Path) (songs_between_ads : Z) : M (list Path) := λ w,
  match create_playlist fuel (random w) tracks ad_file songs_between_ads with
  | Some out =>
      (Done (playlist_of out),
       MkWorld (terminal w) (files w) (rng_after out)
         (log w ++ [Assemble songs_between_ads]))
  | None => (OutOfFuel, w)
  end.

(** ** Writing the playlist *)

Definition newline : string := String "010"%char EmptyString.

(** [str(path.relative_to(path.parent.parent))]. *)
Definition entry_line (path : Path) : result string :=
  match Path.relative_to path (Path.parent (Path.parent path)) with
  | Some r => Ok (Path.str r)
  | None => Raise ValueError
  end.

(** The generator handed to [join]: it stops at the first entry that
    raises. *)
Fixpoint entry_lines (playlist : list Path) : result (list string) :=
  match playlist with
  | [] => Ok []
  | path :: rest =>
      match entry_line path with
      | Ok line =>
          match entry_lines rest with
          | Ok lines => Ok (line :: lines)
          | Raise e => Raise e
          end
      | Raise e => Raise e
      end
  end.

(** [playlist_file.open('w')]: the file exists and is empty, unless the
    opening raises, which leaves the files as they are. *)
Definition open_w (fs : FileSystem) (file : string) : M unit := λ w,
  match open_raises fs file with
  | Some e => (Raised e, w)
  | None =>
      (Done (), MkWorld (terminal w) (<[file := EmptyString]> (files w)) (random w)
                  (log w ++ [Opened file]))
  end.

(** [f.write(data)] and the closing of the file: the data goes after what
    the file holds; when the writing raises, what had reached the file
    does. *)
Definition f_write (fs : FileSystem) (file : string) (data : string) : M unit := λ w,
  let held := default EmptyString (files w !! file) in
  match write_raises fs file data with
  | Some (e, written) =>
      (Raised e,
       MkWorld (terminal w) (<[file := (held +:+ written)%string]> (files w))
         (random w) (log w))
  | None =>
      (Done (),
       MkWorld (terminal w) (<[file := (held +:+ data)%string]> (files w))
         (random w) (log w ++ [Written file]))
  end.

Definition write_playlist (fs : FileSystem) (playlist_directory : Path)
    (playlist : list Path) : M unit :=
  let playlist_file := Path.str (Path.joinpath playlist_directory "jukebox.m3u") in
  open_w fs playlist_file ;;
  lines ← lift (entry_lines playlist);
  f_write fs playlist_file (String.concat newline lines).

(** The lines of a text as a reader of the playlist sees them: the pieces
    between the newline characters ([text.split('\n')]). *)
Fixpoint split_lines (text : string) : list string :=
  match text with
  | EmptyString => [EmptyString]
  | String c rest =>
      if decide (c = "010"%char) then EmptyString :: split_lines rest
      else match split_lines rest with
           | [] => [String c EmptyString]
           | line :: lines => String c line :: lines
           end
  end.

Fixpoint has_newline (text : string) : bool :=
  match text with
  | EmptyString => false
  | String c rest => bool_decide (c = "010"%char) || has_newline rest
  end.

(** The path of an entry from its grandparent on: its final two
    components. *)
Definition from_grandparent (path : Path) : Path :=
  Path.Build false (drop (length (Path.parts path) - 2) (Path.parts path)).

(** ** [main], from the parsed arguments on *)

Section Main.
Variable fs : FileSystem.
Variable MutagenFile : Path → result (option float).

(** [[path.name for path in directory.iterdir() if path.is_dir()]]. *)
Definition dir_names (directory : Path) : list string :=
  Path.name <$> filter (λ p, is_dir fs p) (iterdir fs directory).

Definition file_names (directory : Path) : list string :=
  Path.name <$> filter (λ p, is_file fs p) (iterdir fs directory).

(** [[path for path in directory.iterdir() if path.name == name]]. *)
Definition named (directory : Path) (name : string) : list Path :=
  filter (λ p, Path.name p = name) (iterdir fs directory).

(** One selection step, which [main] writes out three times: the picker,
    [parser.exit(1, required)] when the answer is false ([None] or the empty
    string), and the unpacking of the entries that carry the chosen name. *)
Definition choose (instruction : string) (values : list string)
    (required : string) (directory : Path) : M Path :=
  answer ← select_value instruction values;
  match answer with
  | None | Some EmptyString => parser_exit 1 required
  | Some name => unpack_one (named directory name)
  end.

(** The part of [main] after the check that there are tracks: the average,
    the playlist (assembled only [if ad_file and avg_duration > 0], else the
    track list itself), the total, the cadence for the report, the report
    and the file. *)
Definition build_and_write (ad_every : Z) (playlist_directory : Path)
    (fuel : nat) (ad_file : Path) (tracks : list Path) : M unit :=
  record (Estimate tracks) ;;
  avg_duration ← lift (get_average_duration MutagenFile tracks);
  playlist ←
    (if truthy (Some ad_file) && (0 <? avg_duration)%float
     then songs_between_ads ← lift (cadence ad_every avg_duration);
          call_create_playlist fuel tracks (Some ad_file) songs_between_ads
     else mret tracks);
  record (Total playlist) ;;
  let total_duration := total_duration MutagenFile playlist in
  songs_between_ads ← lift (songs_between_ads ad_every avg_duration);
  (if (avg_duration =? 0)%float
   then print CouldNotCalculateAverage
   else print_total total_duration ;;
        print (AdsEvery songs_between_ads avg_duration)) ;;
  write_playlist fs playlist_directory playlist.

(** [main] after [parse_args]: the three checks of the arguments, the three
    selection steps, the scan of the music folder and the rest. *)
Definition main (fuel : nat) (ad_every : Z)
    (music_directory playlist_directory : Path) : M unit :=
  if ad_every <? 0
  then parser_exit 1 "❌ Minutes between ads must be positive number"
  else if negb (path_exists fs music_directory)
  then parser_exit 1 "❌ Music directory does not exist."
  else if negb (path_exists fs playlist_directory)
  then parser_exit 1 "❌ Playlists directory does not exist."
  else
    ads_folder ← choose "Select the ads folder" (dir_names music_directory)
                   "❌ An ads folder must be chosen." music_directory;
    ad_file ← choose "Select the ad file" (file_names ads_folder)
                "❌ An ad file must be chosen." ads_folder;
    music_folder ← choose "Select the music folder" (dir_names music_directory)
                     "❌ A music folder must be chosen." music_directory;
    record (Scan music_folder) ;;
    let tracks := get_audio_files fs music_folder in
    match tracks with
    | [] => print NoAudioFilesFound
    | _ :: _ => build_and_write ad_every playlist_directory fuel ad_file tracks
    end.
End Main.

(** ** The report: [seconds_to_hms]

    The function is embedded on the number that its float argument stands
    for.  The float operations of the source give the same three numbers
    for a total from 0 seconds to under 100 hours, where they are exact;
    the properties of the report are stated for that range. *)

(** [x // n] and [x % n] by a positive integer, on the number that the
    float [x] stands for: the quotient rounded down and what is left of
    [x]. *)
Definition floordiv (x : Q) (n : Z) : Q := inject_Z (Qfloor (x / inject_Z n)).

Definition pymod (x : Q) (n : Z) : Q := (x - inject_Z n * floordiv x n)%Q.

(** [int(x)]: the fraction is cut off, toward zero. *)
Definition int_of_float (x : Q) : Z :=
  if Qle_bool 0 x then Qfloor x else Qceiling x.

(** [f'{n:02d}']: the decimal digits with a minus sign for a negative
    number, and a zero in front when that is a single character. *)
Definition format_02d (n : Z) : string :=
  let digits := NilZero.string_of_int (Z.to_int n) in
  if (String.length digits <? 2)%nat then ("0" +:+ digits)%string else digits.

(** The three numbers that [seconds_to_hms] formats: [h], [m] and [s]. *)
Definition hms (seconds : Q) : Z * Z * Z :=
  let h := int_of_float (floordiv seconds 3600) in
  let m := int_of_float (floordiv (pymod seconds 3600) 60) in
  let s := int_of_float (pymod seconds 60) in
  (h, m, s).

Definition seconds_to_hms (seconds : Q) : string :=
  let '(h, m, s) := hms seconds in
  (format_02d h +:+ ":" +:+ format_02d m +:+ ":" +:+ format_02d s)%string.

(** ** Reading the log of a run *)

Definition is_select (s : stage) : bool :=
  match s with
  | Select _ _ _ => true
  | _ => false
  end.

(** A selection step that the operator left without a choice: the answer
    is false for [if not answer]. *)
Definition cancelled (answer : option string) : bool :=
  match answer with
  | None | Some EmptyString => true
  | Some (String _ _) => false
  end.

Definition cancelled_select (s : stage) : bool :=
  match s with
  | Select _ _ answer => cancelled answer
  | _ => false
  end.

(** The messages of the three exits, in the order of the steps. *)
Definition exit_messages : list string :=
  ["❌ An ads folder must be chosen.";
   "❌ An ad file must be chosen.";
   "❌ A music folder must be chosen."]%string.

(** An outcome that ends the run, at any result type. *)
Definition stop {A B} (o : outcome A) : option (outcome B) :=
  match o with
  | Done _ => None
  | SystemExit status msg => Some (SystemExit status msg)
  | Raised e => Some (Raised e)
  | Blocked => Some Blocked
  | OutOfFuel => Some OutOfFuel
  end.

(** A computation that selects nothing: it only adds stages other than
    selections to the log. *)
Definition quiet {A} (m : M A) : Prop :=
  ∀ w o w', m w = (o, w') →
    ∃ stages, log w' = log w ++ stages ∧ Forall (λ s, is_select s = false) stages.

(** How a run can end, seen from its log: nobody left a selection without
    a choice, or the step [k] was left so, and then its selection is the
    last stage of the log, the stages before it are the selections made,
    the run ends by the exit of that step and the files are as before. *)
Definition run_verdict (w0 w' : world) (o : outcome ()) : Prop :=
  Forall (λ s, cancelled_select s = false) (log w')
  ∨ ∃ k msg, exit_messages !! k = Some msg
      ∧ o = SystemExit 1 msg
      ∧ files w' = files w0
      ∧ length (log w') = S k
      ∧ Forall (λ s, is_select s = true) (log w')
      ∧ Forall (λ s, cancelled_select s = false) (take k (log w')).

(** The log after [k] selections and nothing else. *)
Definition selections (k : nat) (w0 w : world) : Prop :=
  files w = files w0
  ∧ length (log w) = k
  ∧ Forall (λ s, is_select s = true) (log w)
  ∧ Forall (λ s, cancelled_select s = false) (log w).

(** What a step of the run may have done to the files, for the playlist
    file [file]: nothing; or it set [file] and ended normally; or it ended
    by the exception of a write, which left in [file] what had reached
    it. *)
Definition settled (fs : FileSystem) (file : string) (w : world)
    (o : outcome ()) (w' : world) : Prop :=
  files w' = files w
  ∨ ∃ content, files w' = <[file := content]> (files w)
      ∧ (o = Done ()
         ∨ ∃ e text, o = Raised e ∧ write_raises fs file text = Some (e, content)).

(** A computation that never stops for want of fuel. *)
Definition fuelled {A} (m : M A) : Prop :=
  ∀ w o w', m w = (o, w') → o ≠ OutOfFuel.

(** ** A small library for the examples *)

Module Sample.
Definition music : Path := Path.Build true ["srv"; "music"]%string.
Definition playlists : Path := Path.Build true ["srv"; "playlists"]%string.
Definition ads : Path := Path.joinpath music "ads".
Definition rock : Path := Path.joinpath music "rock".
Definition jingle : Path := Path.joinpath ads "jingle.mp3".
Definition song (n : string) : Path := Path.joinpath rock (n +:+ ".mp3").

Definition three : list Path := [song "a"; song "b"; song "c"].
Definition seven : list Path :=
  [song "a"; song "b"; song "c"; song "d"; song "e"; song "f"; song "g"].

(** An oracle: [a] lasts 100 seconds, [b] 200 seconds, [c] cannot be
    read, the jingle lasts 30 seconds, nothing else is an audio file. *)
Definition oracle (p : Path) : result (option float) :=
  if decide (p = song "a") then Ok (Some 100%float)
  else if decide (p = song "b") then Ok (Some 200%float)
  else if decide (p = song "c") then Raise OSError
  else if decide (p = jingle) then Ok (Some 30%float)
  else Ok None.

Definition notes : Path := Path.joinpath rock "notes.txt".

(** A track whose file name has a newline character in it. *)
Definition two_lines : Path :=
  Path.joinpath rock (String "b" (String "010" "c.mp3")).

Definition fs : FileSystem :=
  MkFileSystem
    (λ p, bool_decide (p ∈ [music; playlists; ads; rock; jingle; notes;
                            song "a"; song "b"; song "c"]))
    (λ p, bool_decide (p ∈ [music; playlists; ads; rock]))
    (λ p, bool_decide (p ∈ [jingle; notes; song "a"; song "b"; song "c"]))
    (λ p, if decide (p = music) then [ads; rock]
          else if decide (p = ads) then [jingle]
          else if decide (p = rock) then [song "c"; notes; song "a"; song "b"]
          else [])
    (λ _, None)
    (λ _ _, None).

(** The same files on a full disk: a write raises before any of the text
    reaches the file. *)
Definition full_disk : FileSystem :=
  MkFileSystem (path_exists fs) (is_dir fs) (is_file fs) (iterdir fs)
    (λ _, None) (λ _ _, Some (OSError, EmptyString)).

(** The operator picks the ads folder, the jingle and the rock folder. *)
Definition picks_all : list ui_event :=
  [ListViewSelected 0; Key "down"; ListViewSelected 0; ListViewSelected 1].

(** The operator picks the ads folder and the jingle, then quits. *)
Definition quits_at_music_folder : list ui_event :=
  [ListViewSelected 0; ListViewSelected 0; Key "down"; Key "q"; ListViewSelected 1].

(** A generator whose draws are all [0]. *)
Definition zeros : Random := MkRandom (λ _, 0%nat) 0.
(** A generator with draws [3, 10, 17, ...]. *)
Definition source : Random := MkRandom (λ k, (7 * k + 3)%nat) 0.
End Sample.

(** * Properties *)

(** ** The shuffle permutes *)

Section ShuffleFacts.
Context {A : Type}.
Implicit Types x l : list A.

Lemma insert_lookup_perm l j (y xj : A) :
  l !! j = Some xj → xj :: <[j:=y]> l ≡ₚ y :: l.
Proof.
  revert j. induction l as [|a l IH]; intros [|j] Hj; simplify_eq/=.
  - apply perm_swap.
  - etrans; [apply perm_swap|]. rewrite (IH _ Hj). apply perm_swap.
Qed.

Lemma exchange_perm x i j : exchange x i j ≡ₚ x.
Proof.
  unfold exchange.
  destruct (x !! i) as [xi|] eqn:Hi; [|done].
  destruct (x !! j) as [xj|] eqn:Hj; [|done].
  revert i j Hi Hj. induction x as [|a x IH]; intros [|i] [|j] Hi Hj; simplify_eq/=.
  - done.
  - by apply insert_lookup_perm.
  - by apply insert_lookup_perm.
  - by rewrite IH.
Qed.

Lemma shuffle_from_perm i g x : (shuffle_from i g x).2 ≡ₚ x.
Proof.
  revert g x. induction i as [|i IH]; intros g x; simpl; [done|].
  rewrite IH. apply exchange_perm.
Qed.

Lemma shuffle_perm g x : (shuffle g x).2 ≡ₚ x.
Proof. apply shuffle_from_perm. Qed.

Lemma shuffle_from_cursor i g x :
  cursor (shuffle_from i g x).1 = (cursor g + i)%nat.
Proof.
  revert g x. induction i as [|i IH]; intros g x; simpl; [lia|].
  rewrite IH. simpl. lia.
Qed.

Lemma shuffle_length g x : length (shuffle g x).2 = length x.
Proof. apply Permutation_length, shuffle_perm. Qed.

Lemma shuffle_nil g : (shuffle g (@nil A)).2 = [].
Proof. done. Qed.

(** A slice that starts inside or past the list and is not reversed. *)
Lemma slice_window l i c :
  0 ≤ i → 0 ≤ c →
  slice l i (i + c) = take (Z.to_nat c) (drop (Z.to_nat i) l).
Proof.
  intros Hi Hc. unfold slice, adjust_index.
  destruct (Z.ltb_spec i 0), (Z.ltb_spec (i + c) 0); try lia.
  destruct (Z.le_gt_cases i (Z.of_nat (length l))).
  - rewrite (Z.min_l i) by done.
    destruct (Z.le_gt_cases (i + c) (Z.of_nat (length l))).
    + rewrite Z.min_l by done. f_equal. lia.
    + rewrite Z.min_r by lia.
      rewrite !take_ge; [done| |]; rewrite length_drop; lia.
  - rewrite !Z.min_r by lia.
    rewrite !drop_ge by lia. by rewrite !take_nil.
Qed.
End ShuffleFacts.

(** ** Chunks and the interleaved sequence *)

Lemma div_full_chunk (n c : nat) :
  (0 < c)%nat → (c ≤ n)%nat → (n / c = S ((n - c) / c))%nat.
Proof.
  intros Hc Hn. replace n with ((n - c) + 1 * c)%nat at 1 by lia.
  rewrite Nat.div_add by lia. lia.
Qed.

Lemma div_full_chunk_lt (n c k : nat) :
  (0 < c)%nat → (k < n / c)%nat → (c ≤ n)%nat.
Proof.
  intros Hc Hk. destruct (Nat.le_gt_cases c n); [done|].
  rewrite Nat.div_small in Hk by done. lia.
Qed.

Section Interleaved.
Context {A : Type}.
Implicit Types l chunk : list A.
Implicit Types ad : option A.

Lemma chunks_upto_enough c n m l :
  (0 < c)%nat → (length l ≤ n)%nat → (length l ≤ m)%nat →
  chunks_upto n c l = chunks_upto m c l.
Proof.
  intros Hc. revert m l. induction n as [|n IH]; intros m l Hn Hm.
  - destruct l; [|simpl in Hn; lia]. by destruct m.
  - destruct l as [|a l]; [by destruct m|].
    destruct m as [|m]; [simpl in Hm; lia|].
    cbn [chunks_upto]. f_equal.
    apply IH; rewrite length_drop; simpl in *; lia.
Qed.

Lemma interleaved_nil c ad : interleaved c ad (@nil A) = [].
Proof. done. Qed.

Lemma interleaved_step c ad l :
  (0 < c)%nat → l ≠ [] →
  interleaved c ad l = with_ad c ad (take c l) ++ interleaved c ad (drop c l).
Proof.
  intros Hc Hl. destruct l as [|a l]; [done|].
  unfold interleaved, chunks. cbn [length chunks_upto].
  rewrite fmap_cons, concat_cons. do 3 f_equal.
  apply chunks_upto_enough; [done| |done].
  rewrite length_drop. simpl. lia.
Qed.

(** Induction along the chunks of a list. *)
Lemma chunk_ind c (Hc : (0 < c)%nat) (P : list A → Prop) :
  P [] →
  (∀ l, l ≠ [] → P (drop c l) → P l) →
  ∀ l, P l.
Proof.
  intros Hnil Hstep l.
  remember (length l) as n eqn:Hn. revert l Hn.
  induction n as [n IH] using lt_wf_ind. intros l ->.
  destruct l as [|a l]; [done|].
  apply Hstep; [done|].
  apply (IH (length (drop c (a :: l)))); [|done].
  rewrite length_drop. simpl. lia.
Qed.

Lemma interleaved_no_ad c l : (0 < c)%nat → interleaved c None l = l.
Proof.
  intros Hc. induction l as [|l Hl IH] using (chunk_ind c Hc); [done|].
  rewrite interleaved_step, IH by done.
  unfold with_ad. case_decide; simpl; rewrite ?app_nil_r; apply take_drop.
Qed.

Lemma interleaved_length c a l :
  (0 < c)%nat →
  length (interleaved c (Some a) l) = (length l + length l / c)%nat.
Proof.
  intros Hc. induction l as [|l Hl IH] using (chunk_ind c Hc).
  { simpl. by rewrite Nat.Div0.div_0_l. }
  rewrite interleaved_step, length_app, IH, length_drop by done.
  unfold with_ad. rewrite length_take. case_decide as Hfull.
  - rewrite length_app, length_take. simpl.
    rewrite (div_full_chunk (length l) c) by lia. lia.
  - rewrite length_take.
    rewrite (Nat.div_small (length l)) by lia.
    replace (length l - c)%nat with 0%nat by lia.
    rewrite Nat.Div0.div_0_l. lia.
Qed.

Lemma without_ads_app c k l1 l2 :
  (k + length l1 ≤ c)%nat →
  without_ads c k (l1 ++ l2) = l1 ++ without_ads c (k + length l1) l2.
Proof.
  revert k. induction l1 as [|x l1 IH]; intros k Hk; simpl in *.
  - by rewrite Nat.add_0_r.
  - case_decide; [lia|]. rewrite IH by lia. do 3 f_equal. lia.
Qed.

Lemma without_ads_short c k l :
  (k + length l ≤ c)%nat → without_ads c k l = l.
Proof.
  intros Hk. rewrite <- (app_nil_r l) at 1.
  rewrite without_ads_app by done. simpl. apply app_nil_r.
Qed.

(** Leaving the inserted entries out gives back the sequence. *)
Lemma without_ads_interleaved c a l :
  (0 < c)%nat → without_ads c 0 (interleaved c (Some a) l) = l.
Proof.
  intros Hc. induction l as [|l Hl IH] using (chunk_ind c Hc); [done|].
  rewrite interleaved_step by done.
  rewrite <- (take_drop c l) at 3.
  unfold with_ad. case_decide as Hfull.
  - rewrite <- app_assoc, without_ads_app by (simpl; lia). f_equal.
    simpl. case_decide; [done|lia].
  - rewrite length_take in Hfull.
    rewrite drop_ge by lia. rewrite interleaved_nil, !app_nil_r.
    apply without_ads_short. rewrite length_take. lia.
Qed.

(** The entry after the [k]-th full chunk is the ad. *)
Lemma interleaved_lookup_ad c a l k :
  (0 < c)%nat → (k < length l / c)%nat →
  interleaved c (Some a) l !! (k * S c + c)%nat = Some a.
Proof.
  intros Hc. revert l. induction k as [|k IH]; intros l Hk.
  all: pose proof (div_full_chunk_lt _ _ _ Hc Hk) as Hle.
  all: assert (l ≠ []) by (intros ->; simpl in *; lia).
  all: rewrite interleaved_step by done; unfold with_ad.
  all: rewrite length_take; case_decide; [|lia].
  - rewrite <- app_assoc. rewrite lookup_app_r; rewrite length_take; [|lia].
    replace (0 * S c + c - c `min` length l)%nat with 0%nat by lia. done.
  - rewrite lookup_app_r; rewrite length_app, length_take; simpl; [|lia].
    replace (S (c + k * S c + c) - (c `min` length l + 1))%nat
      with (k * S c + c)%nat by lia.
    apply IH. rewrite length_drop.
    rewrite (div_full_chunk (length l) c) in Hk by lia. lia.
Qed.
End Interleaved.

(** ** The loop of [create_playlist] *)

Section Loop.
Implicit Types tracks playlist : list Path.
Implicit Types ad_file : option Path.

Lemma loop_body_with_ad tracks ad_file c i playlist :
  0 < c → 0 ≤ i →
  loop_body tracks ad_file c (i, playlist) =
    (i + c,
     playlist ++ with_ad (Z.to_nat c) ad_file
                   (take (Z.to_nat c) (drop (Z.to_nat i) tracks))).
Proof.
  intros Hc Hi. unfold loop_body. rewrite slice_window by lia.
  set (chunk := take _ _). f_equal. unfold with_ad, len.
  destruct ad_file as [ad|]; simpl.
  - destruct (Z.eqb_spec (Z.of_nat (length chunk)) c); case_decide; try lia.
    + by rewrite app_assoc.
    + done.
  - case_decide; by rewrite ?app_nil_r.
Qed.

(** With a positive cadence the loop ends, and its playlist is the
    interleaved rest of the tracks after what it had. *)
Lemma while_loop_interleaved tracks ad_file c fuel i playlist :
  0 < c → 0 ≤ i →
  (length (drop (Z.to_nat i) tracks) < fuel)%nat →
  while_loop fuel tracks ad_file c (i, playlist) =
    Some (playlist ++ interleaved (Z.to_nat c) ad_file (drop (Z.to_nat i) tracks)).
Proof.
  intros Hc. revert i playlist.
  induction fuel as [|fuel IH]; intros i playlist Hi Hfuel; [lia|].
  cbn [while_loop fst snd]. unfold len.
  destruct (Z.ltb_spec i (Z.of_nat (length tracks))) as [Hin|Hout].
  - rewrite loop_body_with_ad by done.
    rewrite length_drop in Hfuel.
    rewrite IH; [|lia|rewrite length_drop; lia].
    rewrite <- app_assoc. do 2 f_equal.
    rewrite (interleaved_step _ _ (drop (Z.to_nat i) tracks)); [|lia|].
    + rewrite drop_drop. do 3 f_equal. lia.
    + intros Hnil. apply (f_equal length) in Hnil.
      rewrite length_drop in Hnil. simpl in Hnil. lia.
  - rewrite drop_ge by lia. by rewrite interleaved_nil, app_nil_r.
Qed.

(** Without a positive cadence the index never passes the end. *)
Lemma while_loop_stuck tracks ad_file c fuel i playlist :
  c ≤ 0 → i < len tracks →
  while_loop fuel tracks ad_file c (i, playlist) = None.
Proof.
  intros Hc. revert i playlist.
  induction fuel as [|fuel IH]; intros i playlist Hi; [done|].
  cbn [while_loop fst snd].
  destruct (Z.ltb_spec i (len tracks)); [|lia].
  unfold loop_body. apply IH. lia.
Qed.

(** More fuel does not change a result. *)
Lemma while_loop_more_fuel tracks ad_file c fuel fuel' st playlist :
  (fuel ≤ fuel')%nat →
  while_loop fuel tracks ad_file c st = Some playlist →
  while_loop fuel' tracks ad_file c st = Some playlist.
Proof.
  revert fuel' st. induction fuel as [|fuel IH]; intros fuel' st Hle; [done|].
  destruct fuel' as [|fuel']; [lia|]. cbn [while_loop].
  destruct (st.1 <? len tracks); [|done].
  apply IH. lia.
Qed.

Lemma while_loop_deterministic tracks ad_file c fuel1 fuel2 st playlist1 playlist2 :
  while_loop fuel1 tracks ad_file c st = Some playlist1 →
  while_loop fuel2 tracks ad_file c st = Some playlist2 →
  playlist1 = playlist2.
Proof.
  intros H1 H2.
  apply (while_loop_more_fuel _ _ _ _ (fuel1 `max` fuel2)%nat) in H1; [|lia].
  apply (while_loop_more_fuel _ _ _ _ (fuel1 `max` fuel2)%nat) in H2; [|lia].
  congruence.
Qed.

Lemma insert_ads_interleaved tracks ad_file c fuel :
  0 < c → (length tracks < fuel)%nat →
  insert_ads fuel tracks ad_file c =
    Some (interleaved (Z.to_nat c) ad_file tracks).
Proof.
  intros Hc Hfuel. unfold insert_ads.
  rewrite while_loop_interleaved by (rewrite ?length_drop; simpl; lia).
  done.
Qed.

Lemma create_playlist_unfold fuel g tracks ad_file c :
  create_playlist fuel g tracks ad_file c =
    MkAssembled (shuffle g tracks).1 (shuffle g tracks).2
      <$> insert_ads fuel (shuffle g tracks).2 ad_file c.
Proof. unfold create_playlist. by destruct (shuffle g tracks). Qed.

Lemma create_playlist_interleaved fuel g tracks ad_file c :
  0 < c → (length tracks < fuel)%nat →
  create_playlist fuel g tracks ad_file c =
    Some (MkAssembled (shuffle g tracks).1 (shuffle g tracks).2
            (interleaved (Z.to_nat c) ad_file (shuffle g tracks).2)).
Proof.
  intros Hc Hfuel. rewrite create_playlist_unfold.
  rewrite insert_ads_interleaved by (rewrite ?shuffle_length; done). done.
Qed.

Lemma create_playlist_empty fuel g ad_file c :
  create_playlist (S fuel) g [] ad_file c = Some (MkAssembled g [] []).
Proof. done. Qed.

Lemma create_playlist_stuck fuel g tracks ad_file c :
  c ≤ 0 → tracks ≠ [] → create_playlist fuel g tracks ad_file c = None.
Proof.
  intros Hc Hne. rewrite create_playlist_unfold. unfold insert_ads.
  rewrite while_loop_stuck; [done|done|].
  unfold len. rewrite shuffle_length. destruct tracks; [done|simpl; lia].
Qed.
End Loop.

(** ** The assembler *)

Example audio_files_of_the_rock_folder :
  get_audio_files Sample.fs Sample.rock = Sample.three
  ∧ is_audio_file (Path.joinpath Sample.rock "LOUD.Mp3") = true
  ∧ is_audio_file Sample.notes = false
  ∧ is_audio_file (Path.joinpath Sample.rock ".mp3") = false.
Proof. vm_compute. done. Qed.

Example seven_tracks_cadence_three :
  playlist_of <$> create_playlist 8 Sample.source Sample.seven (Some Sample.jingle) 3
  = Some [Sample.song "f"; Sample.song "g"; Sample.song "b"; Sample.jingle;
          Sample.song "a"; Sample.song "c"; Sample.song "e"; Sample.jingle;
          Sample.song "d"].
Proof. vm_compute. reflexivity. Qed.

Example three_tracks_cadence_five :
  playlist_of <$> create_playlist 4 Sample.zeros Sample.three (Some Sample.jingle) 5
  = Some [Sample.song "b"; Sample.song "c"; Sample.song "a"].
Proof. vm_compute. reflexivity. Qed.

Section Assembler.
Implicit Types tracks : list Path.
Implicit Types ad_file : option Path.

Lemma interleaved_last {A} c (a : A) (l : list A) :
  (0 < c)%nat → (length l `mod` c ≠ 0)%nat →
  last (interleaved c (Some a) l) = last l.
Proof.
  intros Hc. induction l as [|l Hl IH] using (chunk_ind c Hc); [done|].
  intros Hmod. rewrite interleaved_step by done. unfold with_ad.
  rewrite length_take.
  destruct (Nat.le_gt_cases c (length l)) as [Hfull|Hshort].
  - assert (length (drop c l) `mod` c ≠ 0)%nat as Hrest.
    { rewrite length_drop. intros Hz. apply Hmod.
      replace (length l) with ((length l - c) + 1 * c)%nat by lia.
      by rewrite Nat.Div0.mod_add. }
    assert (drop c l ≠ []) as Hne.
    { intros Hnil. rewrite Hnil in Hrest. simpl in Hrest.
      by rewrite Nat.Div0.mod_0_l in Hrest. }
    rewrite last_app, (IH Hrest).
    rewrite <- (take_drop c l) at 2. rewrite (last_app (take c l)).
    destruct (last (drop c l)) eqn:Hlast; [done|].
    by apply last_None in Hlast.
  - case_decide; [lia|].
    rewrite (drop_ge l) by lia. rewrite interleaved_nil, app_nil_r.
    by rewrite take_ge by lia.
Qed.

Lemma filter_nothing {A} (P : A → Prop) `{∀ x, Decision (P x)} (l : list A) :
  Forall (λ y, ¬ P y) l → filter P l = [].
Proof.
  induction 1 as [|y l Hy _ IH]; [done|]. by rewrite filter_cons_False.
Qed.

Lemma filter_all {A} (P : A → Prop) `{∀ x, Decision (P x)} (l : list A) :
  Forall P l → filter P l = l.
Proof.
  induction 1 as [|x l Hx Hl IH]; [done|].
  rewrite filter_cons_True by done. by rewrite IH.
Qed.

Lemma interleaved_filter {A} (P : A → Prop) `{∀ x, Decision (P x)} c a (l : list A) :
  (0 < c)%nat → ¬ P a →
  filter P (interleaved c (Some a) l) = filter P l.
Proof.
  intros Hc Ha. induction l as [|l Hl IH] using (chunk_ind c Hc); [done|].
  rewrite interleaved_step, filter_app, IH by done.
  rewrite <- (take_drop c l) at 3. rewrite (filter_app _ (take c l)). f_equal.
  unfold with_ad. case_decide; [|done].
  rewrite filter_app. simpl. rewrite filter_cons_False by done.
  by rewrite filter_nil, app_nil_r.
Qed.

(** C1, as the code has it: with no ad, or a cadence of 0, the call
    returns exactly the shuffled sequence, nothing inserted, provided
    that the cadence is positive or there are no tracks. *)
Theorem create_playlist_nothing_inserted g tracks ad_file c :
  ad_file = None ∨ c = 0 →
  0 < c ∨ tracks = [] →
  ∃ out, returns g tracks ad_file c out
         ∧ playlist_of out = (shuffle g tracks).2
         ∧ tracks_after out = (shuffle g tracks).2.
Proof.
  intros Hno [Hc| ->].
  - destruct Hno as [->|]; [|lia].
    eexists. split; [|split].
    + exists (S (length tracks)). apply create_playlist_interleaved; [done|lia].
    + simpl. apply interleaved_no_ad. lia.
    + done.
  - eexists. split; [|split].
    + exists 1%nat. apply create_playlist_empty.
    + done.
    + done.
Qed.

Lemma create_playlist_nothing_inserted_witness :
  ∃ out, returns Sample.source Sample.three None 2 out
         ∧ playlist_of out = (shuffle Sample.source Sample.three).2
         ∧ tracks_after out = (shuffle Sample.source Sample.three).2.
Proof.
  apply (create_playlist_nothing_inserted Sample.source Sample.three None 2).
  - left. reflexivity.
  - left. lia.
Defined.

(** C1 as stated fails: with a cadence of 0 and a track to play, the call
    never returns, whether the ad is present or absent. *)
Lemma create_playlist_cadence_zero_never_returns :
  (¬ ∃ out, returns Sample.source Sample.three (Some Sample.jingle) 0 out)
  ∧ (¬ ∃ out, returns Sample.source Sample.three None 0 out).
Proof.
  split; intros (out & fuel & Hout);
    rewrite create_playlist_stuck in Hout; done.
Qed.
(** C2: with an ad and a cadence [c > 0] the call returns the shuffled
    tracks with the ad after each chunk of exactly [c] tracks: [L / c]
    entries are inserted for [L] tracks, the entry after the [k]-th full
    chunk is the ad, leaving the inserted entries out gives the shuffled
    tracks back, and a final chunk shorter than [c] is not followed by an
    ad. *)
Theorem create_playlist_ad_after_each_full_chunk g tracks ad c :
  0 < c →
  ∃ out, returns g tracks (Some ad) c out
    ∧ playlist_of out = interleaved (Z.to_nat c) (Some ad) (tracks_after out)
    ∧ len (playlist_of out) = len tracks + len tracks / c
    ∧ (∀ k, 0 ≤ k < len tracks / c →
         playlist_of out !! Z.to_nat (k * (c + 1) + c) = Some ad)
    ∧ without_ads (Z.to_nat c) 0 (playlist_of out) = tracks_after out
    ∧ (len tracks `mod` c ≠ 0 → last (playlist_of out) = last (tracks_after out)).
Proof.
  intros Hc.
  assert (0 < Z.to_nat c)%nat as Hc' by lia.
  assert (len tracks / c = Z.of_nat (length tracks / Z.to_nat c)) as Hdiv.
  { unfold len. rewrite Nat2Z.inj_div. f_equal. lia. }
  eexists. split_and!.
  - exists (S (length tracks)). apply create_playlist_interleaved; [done|lia].
  - done.
  - rewrite Hdiv. unfold len. cbn [playlist_of tracks_after].
    rewrite interleaved_length, shuffle_length by done. lia.
  - intros k Hk. cbn [playlist_of tracks_after].
    replace (Z.to_nat (k * (c + 1) + c))
      with (Z.to_nat k * S (Z.to_nat c) + Z.to_nat c)%nat by nia.
    apply interleaved_lookup_ad; [done|]. rewrite shuffle_length. lia.
  - cbn [playlist_of tracks_after]. by apply without_ads_interleaved.
  - intros Hmod. cbn [playlist_of tracks_after]. apply interleaved_last; [done|].
    rewrite shuffle_length. intros Hz. apply Hmod.
    unfold len. replace c with (Z.of_nat (Z.to_nat c)) by lia.
    rewrite <- Nat2Z.inj_mod. lia.
Qed.

Lemma create_playlist_ad_after_each_full_chunk_witness :
  ∃ out, returns Sample.source Sample.seven (Some Sample.jingle) 3 out
    ∧ len (playlist_of out) = 9.
Proof.
  destruct (create_playlist_ad_after_each_full_chunk
              Sample.source Sample.seven Sample.jingle 3) as (out & H1 & _ & H2 & _).
  - lia.
  - exists out. split; [exact H1|exact H2].
Defined.
(** C3, as the code has it: for a cadence [c > 0] the call returns, and
    the entries of its playlist other than the inserted ads are a
    permutation of the input tracks; so are the entries different from the
    ad, when the ad is not itself one of the tracks. *)
Theorem create_playlist_keeps_the_tracks g tracks ad c :
  0 < c →
  ∃ out, returns g tracks (Some ad) c out
    ∧ without_ads (Z.to_nat c) 0 (playlist_of out) ≡ₚ tracks
    ∧ filter (λ p, p ≠ ad) (playlist_of out) ≡ₚ filter (λ p, p ≠ ad) tracks
    ∧ (ad ∉ tracks → filter (λ p, p ≠ ad) (playlist_of out) ≡ₚ tracks).
Proof.
  intros Hc.
  assert (0 < Z.to_nat c)%nat as Hc' by lia.
  assert (filter (λ p, p ≠ ad)
            (interleaved (Z.to_nat c) (Some ad) (shuffle g tracks).2)
          ≡ₚ filter (λ p, p ≠ ad) tracks) as Hfilter.
  { rewrite interleaved_filter by (done || tauto). by rewrite shuffle_perm. }
  eexists. split_and!.
  - exists (S (length tracks)). apply create_playlist_interleaved; [done|lia].
  - cbn [playlist_of]. rewrite without_ads_interleaved by done.
    apply shuffle_perm.
  - done.
  - intros Hnotin. cbn [playlist_of]. rewrite Hfilter.
    rewrite filter_all; [done|].
    apply Forall_forall. intros p Hp ->. done.
Qed.

Lemma create_playlist_keeps_the_tracks_witness :
  ∃ out, returns Sample.source Sample.seven (Some Sample.jingle) 3 out
    ∧ without_ads 3 0 (playlist_of out) ≡ₚ Sample.seven.
Proof.
  destruct (create_playlist_keeps_the_tracks
              Sample.source Sample.seven Sample.jingle 3) as (out & H1 & H2 & _).
  - lia.
  - exists out. split; [exact H1|exact H2].
Defined.

(** C3 as stated fails for the cadence 0, where the call does not return;
    and the entries that differ from the ad are fewer than the tracks when
    the ad is one of the tracks. *)
Lemma create_playlist_cadence_zero_no_permutation :
  (¬ ∃ out, returns Sample.zeros Sample.seven (Some Sample.jingle) 0 out)
  ∧ (∀ out, returns Sample.zeros Sample.three (Some (Sample.song "a")) 2 out →
       ¬ filter (λ p, p ≠ Sample.song "a") (playlist_of out) ≡ₚ Sample.three).
Proof.
  split.
  - intros (out & fuel & Hout). rewrite create_playlist_stuck in Hout; done.
  - intros out (fuel & Hout) Hperm.
    assert (create_playlist 4 Sample.zeros Sample.three (Some (Sample.song "a")) 2
            = Some out) as Hrun.
    { destruct (create_playlist 4 Sample.zeros Sample.three
                  (Some (Sample.song "a")) 2) as [out'|] eqn:H4; [|done].
      f_equal. rewrite !create_playlist_unfold in *. unfold insert_ads in *.
      destruct (while_loop 4 _ _ _ _) as [pl4|] eqn:E4; [|done].
      destruct (while_loop fuel _ _ _ _) as [pl|] eqn:E; [|done].
      pose proof (while_loop_deterministic _ _ _ _ _ _ _ _ E4 E).
      simplify_eq/=. done. }
    vm_compute in Hrun. simplify_eq.
    apply Permutation_length in Hperm. vm_compute in Hperm. done.
Qed.
Lemma create_playlist_inv fuel g tracks ad_file c out :
  create_playlist fuel g tracks ad_file c = Some out →
  rng_after out = (shuffle g tracks).1
  ∧ tracks_after out = (shuffle g tracks).2
  ∧ insert_ads fuel (shuffle g tracks).2 ad_file c = Some (playlist_of out).
Proof.
  rewrite create_playlist_unfold.
  destruct (insert_ads _ _ _ _) as [playlist|]; intros; by simplify_eq/=.
Qed.

(** C9: the assembler draws nothing from the generator after the shuffle,
    and its playlist is a function of the shuffled tracks, the ad and the
    cadence: two calls that leave the same shuffled tracks return the same
    playlist, and running the statements after the shuffle on the non-ad
    entries of a playlist gives that playlist again. *)
Theorem create_playlist_deterministic_after_shuffle g tracks ad_file c :
  (∀ fuel out, create_playlist fuel g tracks ad_file c = Some out →
     rng_after out = (shuffle g tracks).1
     ∧ cursor (rng_after out) = (cursor g + (length tracks - 1))%nat
     ∧ ∀ fuel' g' tracks' out',
         create_playlist fuel' g' tracks' ad_file c = Some out' →
         tracks_after out' = tracks_after out →
         playlist_of out' = playlist_of out)
  ∧ (0 < c →
     ∃ out, returns g tracks ad_file c out
       ∧ ∀ fuel, (length tracks < fuel)%nat →
           insert_ads fuel (non_ad_entries c ad_file (playlist_of out)) ad_file c
           = Some (playlist_of out)).
Proof.
  split.
  - intros fuel out (Hrng & Htracks & Hplaylist)%create_playlist_inv.
    split_and!.
    + done.
    + rewrite Hrng. apply shuffle_from_cursor.
    + intros fuel' g' tracks' out' (_ & Htracks' & Hplaylist')%create_playlist_inv Heq.
      rewrite <- Htracks', Heq, Htracks in Hplaylist'.
      unfold insert_ads in *. by eapply while_loop_deterministic.
  - intros Hc. assert (0 < Z.to_nat c)%nat as Hc' by lia.
    eexists. split.
    + exists (S (length tracks)). apply create_playlist_interleaved; [done|lia].
    + intros fuel Hfuel. cbn [playlist_of].
      assert (non_ad_entries c ad_file
                (interleaved (Z.to_nat c) ad_file (shuffle g tracks).2)
              = (shuffle g tracks).2) as ->.
      { destruct ad_file as [ad|]; simpl.
        - by apply without_ads_interleaved.
        - by apply interleaved_no_ad. }
      apply insert_ads_interleaved; [done|]. by rewrite shuffle_length.
Qed.

Lemma create_playlist_deterministic_after_shuffle_witness :
  ∃ out, returns Sample.source Sample.seven (Some Sample.jingle) 3 out
    ∧ insert_ads 8 (non_ad_entries 3 (Some Sample.jingle) (playlist_of out))
        (Some Sample.jingle) 3 = Some (playlist_of out).
Proof.
  destruct (create_playlist_deterministic_after_shuffle
              Sample.source Sample.seven (Some Sample.jingle) 3) as [_ Hrerun].
  destruct Hrerun as (out & Hout & Hsame).
  - lia.
  - exists out. split; [exact Hout|]. apply Hsame. simpl. lia.
Defined.

(** *** The caller's list *)

Lemma exchange_lookup_ne {A} (x : list A) i j m :
  m ≠ i → m ≠ j → exchange x i j !! m = x !! m.
Proof.
  intros Hi Hj. unfold exchange.
  destruct (x !! i), (x !! j); try done.
  by rewrite !list_lookup_insert_ne.
Qed.

Lemma exchange_lookup_l {A} (x : list A) i j :
  (i < length x)%nat → (j < length x)%nat → exchange x i j !! i = x !! j.
Proof.
  intros Hi Hj. unfold exchange.
  destruct (lookup_lt_is_Some_2 x i Hi) as [xi Hxi].
  destruct (lookup_lt_is_Some_2 x j Hj) as [xj Hxj].
  rewrite Hxi, Hxj. destruct (decide (i = j)) as [->|Hne].
  - rewrite list_lookup_insert_eq by (by rewrite length_insert). congruence.
  - rewrite list_lookup_insert_ne by done.
    by rewrite list_lookup_insert_eq.
Qed.

Lemma exchange_same {A} (x : list A) i : exchange x i i = x.
Proof.
  unfold exchange. destruct (x !! i) as [xi|] eqn:Hi; [|done].
  rewrite (list_insert_id x i xi Hi). by apply list_insert_id.
Qed.

(** The draws of [swap_once] exchange the entries at [i] and [j] when the
    shuffle comes to position [j], and nothing else. *)
Lemma shuffle_from_swap_once {A} n i j m g (x : list A) :
  (i < j)%nat → (j < n)%nat →
  entropy g = entropy (swap_once n i j) → (cursor g + m = n - 1)%nat →
  (shuffle_from m g x).2 = if decide (j ≤ m)%nat then exchange x j i else x.
Proof.
  intros Hij Hjn. revert g x. induction m as [|m IH]; intros g x Hg Hcur.
  { simpl. case_decide; [lia|done]. }
  cbn [shuffle_from randbelow]. rewrite Hg. cbn [swap_once entropy].
  replace (n - 1 - cursor g)%nat with (S m) by lia.
  destruct (decide (S m = j)) as [<-|Hne].
  - rewrite Nat.mod_small by lia.
    rewrite IH; [|done|simpl; lia].
    rewrite decide_False by lia. by rewrite decide_True by lia.
  - rewrite Nat.mod_small by lia. rewrite exchange_same.
    rewrite IH; [|done|simpl; lia].
    destruct (decide (j ≤ m)%nat), (decide (j ≤ S m)%nat); try done; lia.
Qed.

Lemma shuffle_swap_once {A} i j (x : list A) :
  (i < j)%nat → (j < length x)%nat →
  (shuffle (swap_once (length x) i j) x).2 = exchange x j i.
Proof.
  intros Hij Hj. unfold shuffle.
  rewrite (shuffle_from_swap_once (length x) i j); [|done|done|done|simpl; lia].
  by rewrite decide_True by lia.
Qed.

(** A list with two different entries is left in another order by some
    generator. *)
Lemma shuffle_can_reorder {A} (x : list A) a b :
  a ∈ x → b ∈ x → a ≠ b → ∃ g, (shuffle g x).2 ≠ x.
Proof.
  intros [i Hi]%list_elem_of_lookup [j Hj]%list_elem_of_lookup Hab.
  assert (∀ i j, (i < j)%nat → (j < length x)%nat → x !! i ≠ x !! j →
                 ∃ g, (shuffle g x).2 ≠ x) as Hswap.
  { intros i' j' Hlt Hlen Hne. exists (swap_once (length x) i' j').
    rewrite shuffle_swap_once by done. intros Hsame. apply Hne.
    rewrite <- Hsame at 2. symmetry. apply exchange_lookup_l; lia. }
  apply lookup_lt_Some in Hi as Hli. apply lookup_lt_Some in Hj as Hlj.
  destruct (Nat.lt_trichotomy i j) as [Hlt|[->|Hgt]].
  - apply (Hswap i j); [done|done|congruence].
  - congruence.
  - apply (Hswap j i); [done|done|congruence].
Qed.

(** A list whose entries are all the same has one order only. *)
Lemma perm_constant {A} (x y : list A) :
  y ≡ₚ x → (∀ a b, a ∈ x → b ∈ x → a = b) → y = x.
Proof.
  intros Hperm Hsame. apply list_eq. intros k.
  pose proof (Permutation_length Hperm) as Hlen.
  destruct (y !! k) as [a|] eqn:Hy, (x !! k) as [b|] eqn:Hx.
  - f_equal. apply Hsame; [|by eapply list_elem_of_lookup_2].
    rewrite <- Hperm. by eapply list_elem_of_lookup_2.
  - apply lookup_lt_Some in Hy. apply lookup_ge_None in Hx. lia.
  - apply lookup_lt_Some in Hx. apply lookup_ge_None in Hy. lia.
  - done.
Qed.

(** C10, as the code has it: the call leaves the caller's list shuffled:
    the list after the call is the shuffle's output, a permutation of the
    list before the call, and it is the list the playlist is made from;
    with a cadence [c > 0] the call returns; a list with two different
    entries is left in another order by some generator; and a list whose
    entries are all the same, such as a list of one track, is left as it
    was by every generator. *)
Theorem create_playlist_shuffles_the_callers_list g tracks ad_file c :
  (∀ fuel out, create_playlist fuel g tracks ad_file c = Some out →
     tracks_after out = (shuffle g tracks).2
     ∧ tracks_after out ≡ₚ tracks
     ∧ insert_ads fuel (tracks_after out) ad_file c = Some (playlist_of out))
  ∧ (0 < c → ∃ out, returns g tracks ad_file c out ∧ tracks_after out ≡ₚ tracks)
  ∧ (0 < c → (∃ a b, a ∈ tracks ∧ b ∈ tracks ∧ a ≠ b) →
     ∃ g' out, returns g' tracks ad_file c out ∧ tracks_after out ≠ tracks)
  ∧ ((∀ a b, a ∈ tracks → b ∈ tracks → a = b) →
     ∀ fuel out, create_playlist fuel g tracks ad_file c = Some out →
       tracks_after out = tracks).
Proof.
  split_and!.
  - intros fuel out (Hrng & Htracks & Hplaylist)%create_playlist_inv.
    rewrite Htracks. split_and!; [done|apply shuffle_perm|done].
  - intros Hc. eexists. split.
    + exists (S (length tracks)). apply create_playlist_interleaved; [done|lia].
    + apply shuffle_perm.
  - intros Hc (a & b & Ha & Hb & Hab).
    destruct (shuffle_can_reorder tracks a b Ha Hb Hab) as [g' Hg'].
    exists g'. eexists. split.
    + exists (S (length tracks)). apply create_playlist_interleaved; [done|lia].
    + done.
  - intros Hsame fuel out (_ & -> & _)%create_playlist_inv.
    apply perm_constant; [apply shuffle_perm|done].
Qed.

Lemma create_playlist_shuffles_the_callers_list_witness :
  ∃ g' out, returns g' [Sample.song "a"; Sample.song "b"; Sample.song "a"]
              (Some Sample.jingle) 2 out
            ∧ tracks_after out ≠ [Sample.song "a"; Sample.song "b"; Sample.song "a"].
Proof.
  destruct (create_playlist_shuffles_the_callers_list Sample.source
              [Sample.song "a"; Sample.song "b"; Sample.song "a"]
              (Some Sample.jingle) 2) as (_ & _ & H & _).
  apply H.
  - lia.
  - exists (Sample.song "a"), (Sample.song "b").
    split; [apply list_elem_of_here|].
    split; [apply list_elem_of_further, list_elem_of_here|]. discriminate.
Defined.

(** C10 as stated fails for a list of one track: the call returns, and
    whatever the generator draws, the list after the call is the list
    before it. *)
Lemma create_playlist_one_track_stays :
  (∀ g, ∃ out, returns g [Sample.song "a"] (Some Sample.jingle) 2 out)
  ∧ (∀ g out, returns g [Sample.song "a"] (Some Sample.jingle) 2 out →
       tracks_after out = [Sample.song "a"]).
Proof.
  split.
  - intros g. eexists. exists 2%nat. apply create_playlist_interleaved; [lia|simpl; lia].
  - intros g out (fuel & (_ & -> & _)%create_playlist_inv). reflexivity.
Qed.
End Assembler.

(** ** Durations and the cadence *)

Lemma round_half_even_nearest x :
  (Qabs (x - inject_Z (round_half_even x)) <= 1 # 2)%Q.
Proof.
  unfold round_half_even.
  pose proof (Qfloor_le x) as Hlo. pose proof (Qlt_floor x) as Hhi.
  rewrite inject_Z_plus in Hhi. set (f := Qfloor x) in *.
  assert (inject_Z 1 == 1)%Q as H1 by reflexivity.
  destruct (x - inject_Z f ?= 1 # 2)%Q eqn:Hcmp.
  - apply Qeq_alt in Hcmp.
    destruct (Z.even f); rewrite ?inject_Z_plus;
      apply Qabs_case; intros _; lra.
  - apply Qlt_alt in Hcmp. apply Qabs_case; intros _; lra.
  - apply Qgt_alt in Hcmp. rewrite inject_Z_plus.
    apply Qabs_case; intros _; lra.
Qed.


Example round_half_to_even :
  round 2.5 = Ok 2 ∧ round 3.5 = Ok 4 ∧ round (-0.5) = Ok 0
  ∧ round 0.45 = Ok 0 ∧ round 12.5 = Ok 12
  ∧ round infinity = Raise OverflowError ∧ round nan = Raise ValueError.
Proof. vm_compute. done. Qed.

Example cadence_examples :
  songs_between_ads 15 180 = Ok 5 ∧ songs_between_ads 15 200 = Ok 4
  ∧ songs_between_ads 15 2000 = Ok 1 ∧ songs_between_ads 0 180 = Ok 1
  ∧ songs_between_ads 15 0 = Ok 0 ∧ songs_between_ads 1 4.8 = Ok 12
  ∧ songs_between_ads 15 nan = Raise ValueError.
Proof. vm_compute. done. Qed.


(** The cadence, when there is one, is at least 1. *)
Lemma cadence_at_least_1 x d c : cadence x d = Ok c → 1 ≤ c.
Proof.
  unfold cadence, mbind, result_bind.
  destruct (int_truediv _ _) as [quotient|]; [|done].
  destruct (round quotient) as [rounded|]; [|done].
  intros [= <-]. lia.
Qed.




Section DurationFacts.
Variable MutagenFile : Path → result (option float).






Example average_of_two_known_one_unknown :
  get_average_duration Sample.oracle Sample.three = Ok 150%float
  ∧ get_average_duration (λ _, Ok (Some 0.1%float)) Sample.three
    = Ok 0.10000000000000002%float
  ∧ sum [0.1; 0.2]%float = 0.30000000000000004%float.
Proof. vm_compute. done. Qed.


Example total_of_three :
  total_duration Sample.oracle (Sample.jingle :: Sample.three) = 330%float.
Proof. vm_compute. reflexivity. Qed.

Lemma total_duration_snoc playlist p :
  total_duration MutagenFile (playlist ++ [p])
  = add_duration MutagenFile (total_duration MutagenFile playlist) p.
Proof. unfold total_duration. by rewrite fold_left_app. Qed.

Lemma fold_add_duration_filter playlist total :
  fold_left (add_duration MutagenFile) playlist total
  = fold_left (add_duration MutagenFile)
      (filter (λ p, is_Some (duration_sample MutagenFile p)) playlist) total.
Proof.
  revert total. induction playlist as [|p playlist IH]; intros total; [done|].
  cbn [fold_left]. rewrite IH.
  destruct (duration_sample MutagenFile p) as [d|] eqn:Hp.
  - by rewrite filter_cons_True by (rewrite Hp; by eexists).
  - rewrite filter_cons_False by (rewrite Hp; by intros [? ?]).
    f_equal. unfold add_duration, duration_sample in *.
    by destruct (MutagenFile p) as [[d|]|e].
Qed.

(** C6: the loop goes through every entry of the playlist, in order,
    from 0 on: an entry with a duration adds it (a zero duration as 0),
    an entry whose lookup raises or gives no duration adds nothing and
    ends in no exception, so the total is that of the entries that have a
    duration, and 0 when none has. *)
Theorem total_duration_sums_every_entry playlist :
  total_duration MutagenFile [] = 0%float
  ∧ (∀ p length, MutagenFile p = Ok (Some length) →
       total_duration MutagenFile (playlist ++ [p])
       = (total_duration MutagenFile playlist + or_zero length)%float)
  ∧ (∀ p e, MutagenFile p = Raise e →
       total_duration MutagenFile (playlist ++ [p])
       = total_duration MutagenFile playlist)
  ∧ (∀ p, duration_sample MutagenFile p = None →
       total_duration MutagenFile (playlist ++ [p])
       = total_duration MutagenFile playlist)
  ∧ total_duration MutagenFile playlist
    = total_duration MutagenFile
        (filter (λ p, is_Some (duration_sample MutagenFile p)) playlist)
  ∧ (Forall (λ p, duration_sample MutagenFile p = None) playlist →
     total_duration MutagenFile playlist = 0%float).
Proof.
  split_and!.
  - done.
  - intros p length Hp. rewrite total_duration_snoc. unfold add_duration.
    by rewrite Hp.
  - intros p e Hp. rewrite total_duration_snoc. unfold add_duration.
    by rewrite Hp.
  - intros p Hp. rewrite total_duration_snoc.
    unfold add_duration, duration_sample in *.
    by destruct (MutagenFile p) as [[d|]|e].
  - apply fold_add_duration_filter.
  - intros Hnone. unfold total_duration. rewrite fold_add_duration_filter.
    rewrite filter_nothing; [done|].
    eapply Forall_impl; [exact Hnone|]. intros p -> [? ?]. done.
Qed.
End DurationFacts.


Lemma total_duration_sums_every_entry_witness :
  total_duration Sample.oracle Sample.three = 300%float.
Proof.
  destruct (total_duration_sums_every_entry Sample.oracle
              [Sample.song "a"; Sample.song "b"]) as (_ & _ & Hraise & _).
  change Sample.three with ([Sample.song "a"; Sample.song "b"] ++ [Sample.song "c"]).
  rewrite (Hraise (Sample.song "c") OSError).
  - vm_compute. reflexivity.
  - reflexivity.
Defined.

(** ** The playlist file *)

Lemma strip_prefix_take n (l : list string) :
  Path.strip_prefix (take n l) l = Some (drop n l).
Proof.
  revert l. induction n as [|n IH]; intros [|x l]; simpl; try done.
  case_decide; [apply IH|done].
Qed.

Lemma removelast_take {A} (l : list A) : removelast l = take (length l - 1) l.
Proof.
  induction l as [|x [|y l] IH]; try done.
  change (removelast (x :: y :: l)) with (x :: removelast (y :: l)).
  rewrite IH. simpl. by rewrite Nat.sub_0_r.
Qed.

Lemma grandparent_parts p :
  Path.parts (Path.parent (Path.parent p))
  = take (length (Path.parts p) - 2) (Path.parts p).
Proof.
  simpl. rewrite !removelast_take, length_take, take_take.
  f_equal. lia.
Qed.

Lemma relative_to_grandparent p :
  Path.relative_to p (Path.parent (Path.parent p)) = Some (from_grandparent p).
Proof.
  unfold Path.relative_to. rewrite grandparent_parts. simpl.
  case_decide; [|done]. by rewrite strip_prefix_take.
Qed.

Lemma entry_lines_ok playlist :
  entry_lines playlist = Ok ((λ p, Path.str (from_grandparent p)) <$> playlist).
Proof.
  induction playlist as [|p playlist IH]; [done|].
  cbn [entry_lines]. unfold entry_line.
  by rewrite relative_to_grandparent, IH.
Qed.

Example entry_line_of_a_song :
  entry_line (Sample.song "a") = Ok "rock/a.mp3"%string.
Proof. reflexivity. Qed.

Lemma split_lines_no_newline s : has_newline s = false → split_lines s = [s].
Proof.
  induction s as [|c s IH]; [done|]. simpl. intros Hs.
  apply orb_false_iff in Hs as [Hc Hs]. apply bool_decide_eq_false in Hc.
  case_decide; [done|]. by rewrite IH.
Qed.

Lemma split_lines_append s rest :
  has_newline s = false →
  split_lines (s +:+ newline +:+ rest) = s :: split_lines rest.
Proof.
  induction s as [|c s IH]; [done|]. simpl. intros Hs.
  apply orb_false_iff in Hs as [Hc Hs]. apply bool_decide_eq_false in Hc.
  case_decide; [done|]. by rewrite IH.
Qed.

Lemma split_lines_concat lines :
  lines ≠ [] → Forall (λ l, has_newline l = false) lines →
  split_lines (String.concat newline lines) = lines.
Proof.
  intros Hne Hall. induction Hall as [|l lines Hl Hall IH]; [done|].
  destruct lines as [|l' lines].
  - simpl. by apply split_lines_no_newline.
  - cbn [String.concat]. rewrite split_lines_append by done.
    f_equal. by apply IH.
Qed.

(** What the writing of the playlist comes to: nothing when the opening
    raises, a file with what had reached it when the writing raises, and
    else the lines joined by newlines. *)
Lemma write_playlist_run fs playlist_directory playlist w :
  let file := Path.str (Path.joinpath playlist_directory "jukebox.m3u") in
  let text :=
    String.concat newline ((λ p, Path.str (from_grandparent p)) <$> playlist) in
  write_playlist fs playlist_directory playlist w
  = match open_raises fs file with
    | Some e => (Raised e, w)
    | None =>
        match write_raises fs file text with
        | Some (e, written) =>
            (Raised e,
             MkWorld (terminal w) (<[file := written]> (files w)) (random w)
               (log w ++ [Opened file]))
        | None =>
            (Done (),
             MkWorld (terminal w) (<[file := text]> (files w)) (random w)
               (log w ++ [Opened file; Written file]))
        end
    end.
Proof.
  intros file text. unfold write_playlist. fold file.
  unfold mbind, M_bind, open_w, lift, f_write.
  destruct (open_raises fs file); [done|].
  rewrite entry_lines_ok. fold text. cbn.
  destruct (write_raises fs file text) as [[e written]|].
  - by rewrite lookup_insert_eq, insert_insert_eq.
  - by rewrite lookup_insert_eq, insert_insert_eq, <- app_assoc.
Qed.

Example playlist_file_of_three :
  ∃ w', write_playlist Sample.fs Sample.playlists Sample.three
          (MkWorld [] ∅ Sample.zeros []) = (Done (), w')
    ∧ files w' !! "/srv/playlists/jukebox.m3u"%string
      = Some (String.concat newline ["rock/a.mp3"; "rock/b.mp3"; "rock/c.mp3"]%string).
Proof. eexists. split; vm_compute; reflexivity. Qed.

(** C7, as the code has it: the run's last step opens [jukebox.m3u] of the
    playlist directory and writes into it the entries' lines joined by
    single newlines and nothing else; when the opening raises the files are
    as before, and when the writing raises the file holds what had reached
    it and no more; the line
    of an entry is its path relative to the parent of its parent, which
    always exists; and when no line has a newline character in it, a
    reader that splits the file at the newlines finds exactly one line per
    entry, in playlist order. *)
Theorem write_playlist_one_line_per_entry fs playlist_directory playlist w :
  let file := Path.str (Path.joinpath playlist_directory "jukebox.m3u") in
  let lines := (λ p, Path.str (from_grandparent p)) <$> playlist in
  let text := String.concat newline lines in
  (∀ o w', write_playlist fs playlist_directory playlist w = (o, w') →
     (o = Done () ∧ files w' = <[file := text]> (files w))
     ∨ (∃ e, o = Raised e ∧ open_raises fs file = Some e ∧ files w' = files w)
     ∨ (∃ e written, o = Raised e ∧ write_raises fs file text = Some (e, written)
          ∧ files w' = <[file := written]> (files w)))
  ∧ (open_raises fs file = None → write_raises fs file text = None →
     ∃ w', write_playlist fs playlist_directory playlist w = (Done (), w')
       ∧ files w' = <[file := text]> (files w))
  ∧ (∀ p, Path.relative_to p (Path.parent (Path.parent p)) = Some (from_grandparent p)
          ∧ Path.parts p
            = Path.parts (Path.parent (Path.parent p)) ++ Path.parts (from_grandparent p))
  ∧ (playlist ≠ [] → Forall (λ l, has_newline l = false) lines →
     split_lines text = lines
     ∧ length (split_lines text) = length playlist).
Proof.
  intros file lines text. split_and!.
  - intros o w'. rewrite write_playlist_run. fold file lines text.
    destruct (open_raises fs file) as [e|] eqn:Hopen.
    { intros [= <- <-]. right. left. by exists e. }
    destruct (write_raises fs file text) as [[e written]|] eqn:Hwrite;
      intros [= <- <-].
    + right. right. by exists e, written.
    + by left.
  - intros Hopen Hwrite. rewrite write_playlist_run. fold file lines text.
    rewrite Hopen, Hwrite. by eexists.
  - intros p. split; [apply relative_to_grandparent|].
    rewrite grandparent_parts. simpl. by rewrite take_drop.
  - intros Hne Hall.
    assert (lines ≠ []) as Hne' by (subst lines; by destruct playlist).
    subst text. rewrite split_lines_concat by done.
    split; [done|]. subst lines. by rewrite length_fmap.
Qed.

Lemma write_playlist_one_line_per_entry_witness :
  split_lines
    (String.concat newline ((λ p, Path.str (from_grandparent p)) <$> Sample.three))
  = ["rock/a.mp3"; "rock/b.mp3"; "rock/c.mp3"]%string.
Proof.
  destruct (write_playlist_one_line_per_entry Sample.fs Sample.playlists Sample.three
              (MkWorld [] ∅ Sample.zeros [])) as (_ & _ & _ & Hsplit).
  apply Hsplit.
  - discriminate.
  - repeat constructor.
Defined.

(** C7 as stated fails for a track whose file name has a newline character
    in it, which [is_audio_file] accepts: the file written for two entries
    has three lines. *)
Lemma write_playlist_name_with_newline :
  is_audio_file Sample.two_lines = true
  ∧ ∃ w' text,
      write_playlist Sample.fs Sample.playlists [Sample.song "a"; Sample.two_lines]
        (MkWorld [] ∅ Sample.zeros []) = (Done (), w')
      ∧ files w' !! "/srv/playlists/jukebox.m3u"%string = Some text
      ∧ split_lines text = ["rock/a.mp3"; "rock/b"; "c.mp3"]%string.
Proof.
  split; [vm_compute; reflexivity|].
  eexists _, _. split_and!; vm_compute; reflexivity.
Qed.

(** ** The run *)

Lemma bind_inv {A B} (m : M A) (f : A → M B) w o w' :
  (m ≫= f) w = (o, w') →
  (∃ a w1, m w = (Done a, w1) ∧ f a w1 = (o, w'))
  ∨ (∃ o1, m w = (o1, w') ∧ stop o1 = Some o).
Proof.
  unfold mbind, M_bind. destruct (m w) as [[a| | | |] w1]; intros Heq;
    [left; by eauto|right; simplify_eq; by eexists..].
Qed.

Lemma quiet_bind {A B} (m : M A) (f : A → M B) :
  quiet m → (∀ a, quiet (f a)) → quiet (m ≫= f).
Proof.
  intros Hm Hf w o w' [(a & w1 & H1 & H2)|(o1 & H1 & _)]%bind_inv.
  - destruct (Hm _ _ _ H1) as (s1 & E1 & Hs1).
    destruct (Hf a _ _ _ H2) as (s2 & E2 & Hs2).
    exists (s1 ++ s2). rewrite E2, E1, app_assoc. split; [done|].
    by apply Forall_app.
  - by apply (Hm _ _ _ H1).
Qed.

Lemma quiet_ret {A} (a : A) : quiet (mret a).
Proof. intros w o w' [= <- <-]. exists []. by rewrite app_nil_r. Qed.

Lemma quiet_lift {A} (r : result A) : quiet (lift r).
Proof.
  intros w o w' H. exists []. rewrite app_nil_r. split; [|done].
  unfold lift in H. destruct r; by simplify_eq.
Qed.

Lemma quiet_record s : is_select s = false → quiet (record s).
Proof. intros Hs w o w' [= <- <-]. exists [s]. split; [done|]. by constructor. Qed.

Lemma quiet_call_create_playlist fuel tracks ad_file c :
  quiet (call_create_playlist fuel tracks ad_file c).
Proof.
  intros w o w' H. unfold call_create_playlist in H.
  destruct (create_playlist _ _ _ _ _); simplify_eq; simpl.
  - exists [Assemble c]. split; [done|]. by constructor.
  - exists []. by rewrite app_nil_r.
Qed.

Lemma quiet_print_total total_duration : quiet (print_total total_duration).
Proof.
  unfold print_total. destruct (is_finite total_duration);
    [by apply quiet_record|apply quiet_lift].
Qed.

Lemma quiet_write_playlist fs playlist_directory playlist :
  quiet (write_playlist fs playlist_directory playlist).
Proof.
  intros w o w'. rewrite write_playlist_run.
  destruct (open_raises fs _).
  { intros [= <- <-]. exists []. by rewrite app_nil_r. }
  destruct (write_raises fs _ _) as [[e written]|]; intros [= <- <-]; eexists;
    (split; [done|]); by repeat constructor.
Qed.

Section RunFacts.
Variable fs : FileSystem.
Variable MutagenFile : Path → result (option float).

Lemma quiet_build_and_write ad_every playlist_directory fuel ad_file tracks :
  quiet (build_and_write fs MutagenFile ad_every playlist_directory fuel
           ad_file tracks).
Proof.
  unfold build_and_write.
  apply quiet_bind; [by apply quiet_record|]. intros _.
  apply quiet_bind; [apply quiet_lift|]. intros avg_duration.
  apply quiet_bind.
  { case_match; [|apply quiet_ret].
    apply quiet_bind; [apply quiet_lift|]. intros c.
    apply quiet_call_create_playlist. }
  intros playlist.
  apply quiet_bind; [by apply quiet_record|]. intros _.
  apply quiet_bind; [apply quiet_lift|]. intros c.
  apply quiet_bind; [|intros _; apply quiet_write_playlist].
  case_match; [by apply quiet_record|].
  apply quiet_bind; [apply quiet_print_total|]. intros _. by apply quiet_record.
Qed.

Lemma select_value_inv instruction values w o w' :
  select_value instruction values w = (o, w') →
  files w' = files w
  ∧ ((o = Blocked ∧ log w' = log w)
     ∨ ∃ answer, o = Done answer
         ∧ log w' = log w ++ [Select instruction values answer]).
Proof.
  unfold select_value.
  destruct (ListPicker.run _ _) as [[app|] rest]; intros; simplify_eq; simpl.
  - split; [done|]. right. by eexists.
  - split; [done|]. by left.
Qed.

Lemma unpack_one_inv paths w (o : outcome Path) w' :
  unpack_one paths w = (o, w') →
  w' = w ∧ (o = Raised ValueError ∨ ∃ p, o = Done p).
Proof.
  unfold unpack_one, lift, mret, M_ret.
  destruct paths as [|p [|q paths]]; intros; simplify_eq.
  - split; [done|]. by left.
  - split; [done|]. right. by eexists.
  - split; [done|]. by left.
Qed.

(** One selection step: it is blocked, or it adds its selection to the
    log; an answer that is false ends the run with the step's message, and
    any other answer leads on or to the [ValueError] of the unpacking. *)
Lemma choose_inv instruction values required directory w o w' :
  choose fs instruction values required directory w = (o, w') →
  files w' = files w
  ∧ ((o = Blocked ∧ log w' = log w)
     ∨ ∃ answer, log w' = log w ++ [Select instruction values answer]
         ∧ (cancelled answer = true ∧ o = SystemExit 1 required
            ∨ cancelled answer = false
              ∧ (o = Raised ValueError ∨ ∃ p, o = Done p))).
Proof.
  unfold choose.
  intros [(answer & w1 & Hsel & Hrest)|(o1 & Hsel & Hstop)]%bind_inv;
    apply select_value_inv in Hsel as [Hfiles Hsel].
  - destruct Hsel as [[? _]|(answer' & [= <-] & Hlog)]; [done|].
    destruct answer as [[|c name]|].
    + unfold parser_exit in Hrest. simplify_eq.
      split; [done|]. right. exists (Some EmptyString). split; [done|]. by left.
    + apply unpack_one_inv in Hrest as [-> Hrest].
      split; [done|]. right. eexists. split; [done|]. by right.
    + unfold parser_exit in Hrest. simplify_eq.
      split; [done|]. right. exists None. split; [done|]. by left.
  - destruct Hsel as [[-> Hlog]|(answer' & -> & _)]; [|done].
    simpl in Hstop. simplify_eq. split; [done|]. by left.
Qed.

Lemma choose_step k msg instruction values directory w0 w o w' :
  exit_messages !! k = Some msg →
  selections k w0 w →
  choose fs instruction values msg directory w = (o, w') →
  (∃ p, o = Done p ∧ selections (S k) w0 w')
  ∨ (∃ o', stop o = Some o' ∧ run_verdict w0 w' o').
Proof.
  intros Hmsg (Hfiles & Hlen & Hsel & Hgood) [Hfiles' Hcases]%choose_inv.
  destruct Hcases as [[-> Hlog]|(answer & Hlog & Hanswer)].
  - right. eexists. split; [done|]. left. by rewrite Hlog.
  - assert (Forall (λ s, is_select s = true) (log w')) as Hsel'.
    { rewrite Hlog. apply Forall_app. split; [done|]. by constructor. }
    assert (length (log w') = S k) as Hlen'.
    { rewrite Hlog, length_app. simpl. lia. }
    destruct Hanswer as [[Hc ->]|[Hc Ho]].
    + right. eexists. split; [done|]. right. exists k, msg.
      split_and!; try done; [congruence|].
      rewrite Hlog, take_app_length' by done. done.
    + assert (Forall (λ s, cancelled_select s = false) (log w')) as Hgood'.
      { rewrite Hlog. apply Forall_app. split; [done|]. by constructor. }
      destruct Ho as [->|[p ->]].
      * right. eexists. split; [done|]. by left.
      * left. eexists. split; [done|]. split_and!; try done. congruence.
Qed.

Lemma run_verdict_quiet (m : M ()) w0 w o w' k :
  quiet m → selections k w0 w → m w = (o, w') → run_verdict w0 w' o.
Proof.
  intros Hquiet (_ & _ & _ & Hgood) Hrun.
  destruct (Hquiet _ _ _ Hrun) as (stages & Hlog & Hstages).
  left. rewrite Hlog. apply Forall_app. split; [done|].
  eapply Forall_impl; [exact Hstages|]. by intros [].
Qed.

Lemma choose_then k msg instruction values directory (f : Path → M ()) w0 w o w' :
  exit_messages !! k = Some msg →
  selections k w0 w →
  (∀ p w1, selections (S k) w0 w1 → f p w1 = (o, w') → run_verdict w0 w' o) →
  (choose fs instruction values msg directory ≫= f) w = (o, w') →
  run_verdict w0 w' o.
Proof.
  intros Hmsg Hsel Hnext [(p & w1 & Hstep & Hrest)|(o1 & Hstep & Hstop)]%bind_inv.
  - destruct (choose_step _ _ _ _ _ _ _ _ _ Hmsg Hsel Hstep)
      as [(p' & [= <-] & Hsel1)|(o' & Hstop & _)]; [|done].
    by eapply Hnext.
  - destruct (choose_step _ _ _ _ _ _ _ _ _ Hmsg Hsel Hstep)
      as [(p' & -> & _)|(o' & Hstop' & Hverdict)]; [done|].
    destruct o1; simplify_eq/=; done.
Qed.

Lemma main_verdict fuel ad_every music_directory playlist_directory w0 o w' :
  log w0 = [] →
  main fs MutagenFile fuel ad_every music_directory playlist_directory w0 = (o, w') →
  run_verdict w0 w' o.
Proof.
  intros Hlog0. unfold main.
  assert (selections 0 w0 w0) as Hsel0.
  { split_and!; rewrite ?Hlog0; done. }
  assert (∀ msg, parser_exit 1 msg w0 = (o, w') → run_verdict w0 w' o) as Hexit.
  { intros msg [= <- <-]. left. by rewrite Hlog0. }
  destruct (ad_every <? 0); [apply Hexit|].
  destruct (negb (path_exists fs music_directory)); [apply Hexit|].
  destruct (negb (path_exists fs playlist_directory)); [apply Hexit|].
  clear Hexit.
  apply (choose_then 0); [done|done|]. intros ads_folder w1 Hsel1.
  apply (choose_then 1); [done|done|]. intros ad_file w2 Hsel2.
  apply (choose_then 2); [done|done|]. intros music_folder w3 Hsel3.
  apply (run_verdict_quiet _ _ _ _ _ 3); [|done].
  apply quiet_bind; [by apply quiet_record|]. intros _.
  case_match; [by apply quiet_record|apply quiet_build_and_write].
Qed.
End RunFacts.

(** The quit key ends the picker with no selection, whatever keys came
    before it, and leaves the rest of the input to the next picker. *)
Lemma picker_quit instruction values keys rest :
  Forall (λ ev, ∃ key, ev = Key key ∧ key ≠ "q"%string) keys →
  ListPicker.run (ListPicker.init instruction values) (keys ++ Key "q" :: rest)
  = (Some (ListPicker.exit (ListPicker.init instruction values)), rest).
Proof.
  induction 1 as [|ev keys (key & -> & Hkey) _ IH]; [done|].
  cbn [app ListPicker.run ListPicker.handle]. unfold ListPicker.on_key.
  case_decide; [done|]. exact IH.
Qed.

(** A confirmed item ends the picker with the label of that item, which is
    one of the values shown. *)
Lemma picker_selected instruction values item label rest :
  values !! item = Some label →
  ListPicker.run (ListPicker.init instruction values) (ListViewSelected item :: rest)
  = (Some (ListPicker.Build values (Some label) instruction false), rest)
    ∧ label ∈ values.
Proof.
  intros Hitem. split.
  - cbn. unfold ListPicker.on_list_view_selected. cbn. by rewrite Hitem.
  - by eapply list_elem_of_lookup_2.
Qed.

Example run_with_all_choices :
  let w0 := MkWorld Sample.picks_all ∅ Sample.source [] in
  ∃ w', main Sample.fs Sample.oracle 4 15 Sample.music Sample.playlists w0
        = (Done (), w')
    ∧ files w' !! "/srv/playlists/jukebox.m3u"%string
      = Some (String.concat newline ["rock/b.mp3"; "rock/c.mp3"; "rock/a.mp3"]%string).
Proof. eexists. split; vm_compute; reflexivity. Qed.

Example run_cancelled_at_once :
  main Sample.fs Sample.oracle 4 15 Sample.music Sample.playlists
    (MkWorld [Key "down"; Key "q"] ∅ Sample.source [])
  = (SystemExit 1 "❌ An ads folder must be chosen.",
     MkWorld [] ∅ Sample.source
       [Select "Select the ads folder" ["ads"; "rock"]%string None]).
Proof. vm_compute. reflexivity. Qed.

Example run_cancelled_at_the_ad_file :
  main Sample.fs Sample.oracle 4 15 Sample.music Sample.playlists
    (MkWorld [ListViewSelected 1; Key "q"] ∅ Sample.source [])
  = (SystemExit 1 "❌ An ad file must be chosen.",
     MkWorld [] ∅ Sample.source
       [Select "Select the ads folder" ["ads"; "rock"]%string (Some "rock"%string);
        Select "Select the ad file" ["c.mp3"; "notes.txt"; "a.mp3"; "b.mp3"]%string None]).
Proof. vm_compute. reflexivity. Qed.

(** C8: when a selection step of a run is left without a choice, the run
    ends there by the exit of that step: the selection is the last stage
    in the log, the stages before it are the earlier selections and
    nothing else, and the files are those from before the run. *)
Theorem cancellation_ends_the_run fs MutagenFile fuel ad_every
    music_directory playlist_directory events store g o w'
    i instruction values answer :
  main fs MutagenFile fuel ad_every music_directory playlist_directory
    (MkWorld events store g []) = (o, w') →
  log w' !! i = Some (Select instruction values answer) →
  cancelled answer = true →
  (∃ msg, exit_messages !! i = Some msg ∧ o = SystemExit 1 msg)
  ∧ files w' = store
  ∧ length (log w') = S i
  ∧ Forall (λ s, is_select s = true) (log w')
  ∧ (i < 3)%nat.
Proof.
  intros Hrun Hi Hcancel.
  apply main_verdict in Hrun; [|done].
  destruct Hrun as [Hgood|(k & msg & Hmsg & -> & Hfiles & Hlen & Hsel & Hgood)].
  - rewrite Forall_lookup in Hgood. specialize (Hgood _ _ Hi).
    simpl in Hgood. congruence.
  - assert (i = k) as ->.
    { apply lookup_lt_Some in Hi as Hlt.
      destruct (decide (i = k)) as [|Hne]; [done|].
      rewrite Forall_lookup in Hgood.
      specialize (Hgood i (Select instruction values answer)).
      rewrite lookup_take_lt in Hgood by lia.
      specialize (Hgood Hi). simpl in Hgood. congruence. }
    split_and!; try done.
    + by exists msg.
    + by apply lookup_lt_Some in Hmsg.
Qed.

Lemma cancellation_ends_the_run_witness :
  ∃ w', main Sample.fs Sample.oracle 4 15 Sample.music Sample.playlists
          (MkWorld Sample.quits_at_music_folder ∅ Sample.source [])
        = (SystemExit 1 "❌ A music folder must be chosen.", w')
    ∧ files w' = ∅ ∧ length (log w') = 3%nat.
Proof.
  destruct (main Sample.fs Sample.oracle 4 15 Sample.music Sample.playlists
              (MkWorld Sample.quits_at_music_folder ∅ Sample.source []))
    as [o w'] eqn:Hrun.
  destruct (cancellation_ends_the_run _ _ _ _ _ _ _ _ _ _ _
              2 "Select the music folder" ["ads"; "rock"]%string None Hrun)
    as ((msg & Hmsg & ->) & Hfiles & Hlen & _).
  - vm_compute in Hrun. injection Hrun as _ <-. reflexivity.
  - reflexivity.
  - exists w'. injection Hmsg as <-. split; [reflexivity|]. split; assumption.
Defined.

(** ** The run as a whole *)

Lemma stop_not_done {A B} (o : outcome A) (b : B) : stop o ≠ Some (Done b).
Proof. by destruct o. Qed.

Lemma bind_done {A B} (m : M A) (f : A → M B) w b w' :
  (m ≫= f) w = (Done b, w') →
  ∃ a w1, m w = (Done a, w1) ∧ f a w1 = (Done b, w').
Proof.
  intros [?|(o1 & _ & Hstop)]%bind_inv; [done|].
  by apply stop_not_done in Hstop.
Qed.

Lemma lift_done {A} (r : result A) w a w' :
  lift r w = (Done a, w') → r = Ok a ∧ w' = w.
Proof. unfold lift. destruct r; by intros [= <- <-]. Qed.

Lemma fuelled_bind {A B} (m : M A) (f : A → M B) :
  fuelled m → (∀ a w w1, m w = (Done a, w1) → fuelled (f a)) → fuelled (m ≫= f).
Proof.
  intros Hm Hf w o w' [(a & w1 & H1 & H2)|(o1 & H1 & Hstop)]%bind_inv.
  - by eapply Hf.
  - intros ->. destruct o1; simplify_eq/=. by eapply Hm.
Qed.

Lemma fuelled_record s : fuelled (record s).
Proof. by intros w o w' [= <- _]. Qed.

Lemma fuelled_lift {A} (r : result A) : fuelled (lift r).
Proof. intros w o w'. unfold lift. destruct r; by intros [= <- _]. Qed.

Lemma fuelled_print_total total_duration : fuelled (print_total total_duration).
Proof.
  unfold print_total. destruct (is_finite _);
    [apply fuelled_record|apply fuelled_lift].
Qed.

Lemma fuelled_write_playlist fs playlist_directory playlist :
  fuelled (write_playlist fs playlist_directory playlist).
Proof.
  intros w o w'. rewrite write_playlist_run.
  destruct (open_raises fs _); [by intros [= <- _]|].
  destruct (write_raises fs _ _) as [[e written]|]; by intros [= <- _].
Qed.

Lemma fuelled_call_create_playlist fuel tracks ad_file c :
  0 < c → (length tracks < fuel)%nat →
  fuelled (call_create_playlist fuel tracks ad_file c).
Proof.
  intros Hc Hfuel w o w'. unfold call_create_playlist.
  rewrite create_playlist_interleaved by done. by intros [= <- _].
Qed.

Section WholeRun.
Variable fs : FileSystem.
Variable MutagenFile : Path → result (option float).

(** When the run gets to the tracks and ends normally, the playlist it
    adds up is the playlist it writes; the playlist is the track list
    itself when the average is not above 0, and the assembled one
    otherwise. *)
Lemma build_and_write_done ad_every playlist_directory fuel ad_file tracks w w' :
  build_and_write fs MutagenFile ad_every playlist_directory fuel ad_file tracks w
  = (Done (), w') →
  let file := Path.str (Path.joinpath playlist_directory "jukebox.m3u") in
  ∃ avg_duration playlist,
    get_average_duration MutagenFile tracks = Ok avg_duration
    ∧ Total playlist ∈ log w'
    ∧ files w' = <[file := String.concat newline
                             ((λ p, Path.str (from_grandparent p)) <$> playlist)]>
                   (files w)
    ∧ ((0 <? avg_duration)%float = false ∧ playlist = tracks
       ∨ (0 <? avg_duration)%float = true
         ∧ ∃ c out, cadence ad_every avg_duration = Ok c
             ∧ create_playlist fuel (random w) tracks (Some ad_file) c = Some out
             ∧ playlist = playlist_of out).
Proof.
  unfold build_and_write. intros Hrun.
  apply bind_done in Hrun as ([] & w1 & [= <-] & Hrun).
  apply bind_done in Hrun as (avg_duration & w2 & [Havg ->]%lift_done & Hrun).
  apply bind_done in Hrun as (playlist & w3 & Hplay & Hrun).
  apply bind_done in Hrun as ([] & w4 & [= <-] & Hrun).
  apply bind_done in Hrun as (c' & w5 & [_ ->]%lift_done & Hrun).
  apply bind_done in Hrun as ([] & w6 & Hprint & Hrun).
  rewrite write_playlist_run in Hrun.
  destruct (open_raises fs _); [done|].
  destruct (write_raises fs _ _) as [[e written]|]; [done|]. injection Hrun as <-.
  assert (files w6 = files w3 ∧ ∃ stages, log w6 = (log w3 ++ [Total playlist]) ++ stages)
    as [Hfiles6 [stages Hlog6]].
  { destruct (avg_duration =? 0)%float.
    - injection Hprint as <-. split; [done|]. by eexists.
    - apply bind_done in Hprint as ([] & w7 & Htotal & [= <-]).
      unfold print_total in Htotal. destruct (is_finite _); [|done].
      injection Htotal as <-. split; [done|]. simpl. eexists.
      by rewrite <- app_assoc. }
  assert (files w3 = files w
          ∧ ((0 <? avg_duration)%float = false ∧ playlist = tracks
             ∨ (0 <? avg_duration)%float = true
               ∧ ∃ c out, cadence ad_every avg_duration = Ok c
                   ∧ create_playlist fuel (random w) tracks (Some ad_file) c = Some out
                   ∧ playlist = playlist_of out)) as [Hfiles3 Hplaylist].
  { simpl in Hplay. destruct (0 <? avg_duration)%float.
    - apply bind_done in Hplay as (c & w7 & [Hc ->]%lift_done & Hplay).
      unfold call_create_playlist in Hplay. simpl in Hplay.
      destruct (create_playlist _ _ _ _ _) as [out|] eqn:Hout; [|done].
      injection Hplay as <- <-. split; [done|]. right. split; [done|].
      by exists c, out.
    - injection Hplay as <- <-. split; [done|]. by left. }
  exists avg_duration, playlist. split_and!.
  - done.
  - cbn [log]. rewrite Hlog6, !elem_of_app. left. left. right.
    apply list_elem_of_here.
  - cbn [files]. by rewrite Hfiles6, Hfiles3.
  - done.
Qed.

Lemma choose_done instruction values required directory w p w' :
  choose fs instruction values required directory w = (Done p, w') →
  files w' = files w.
Proof. by intros [? _]%choose_inv. Qed.

(** A run that ends normally found no audio file and wrote nothing, or
    wrote the lines of the playlist it added up. *)
Lemma main_done fuel ad_every music_directory playlist_directory w w' :
  main fs MutagenFile fuel ad_every music_directory playlist_directory w
  = (Done (), w') →
  let file := Path.str (Path.joinpath playlist_directory "jukebox.m3u") in
  (Printed NoAudioFilesFound ∈ log w' ∧ files w' = files w)
  ∨ ∃ playlist,
      Total playlist ∈ log w'
      ∧ files w' = <[file := String.concat newline
                               ((λ p, Path.str (from_grandparent p)) <$> playlist)]>
                     (files w).
Proof.
  unfold main. intros Hrun.
  destruct (ad_every <? 0); [done|].
  destruct (negb (path_exists fs music_directory)); [done|].
  destruct (negb (path_exists fs playlist_directory)); [done|].
  apply bind_done in Hrun as (ads_folder & w1 & H1%choose_done & Hrun).
  apply bind_done in Hrun as (ad_file & w2 & H2%choose_done & Hrun).
  apply bind_done in Hrun as (music_folder & w3 & H3%choose_done & Hrun).
  apply bind_done in Hrun as ([] & w4 & [= <-] & Hrun).
  destruct (get_audio_files fs music_folder) as [|track tracks].
  - left. injection Hrun as <-. cbn [log files]. split; [set_solver|congruence].
  - right. apply build_and_write_done in Hrun
      as (avg_duration & playlist & _ & Htotal & Hfiles & _).
    exists playlist. split; [done|]. rewrite Hfiles. cbn [files]. congruence.
Qed.

Lemma fuelled_choose instruction values required directory :
  fuelled (choose fs instruction values required directory).
Proof.
  intros w o w' [_ Hcases]%choose_inv.
  destruct Hcases as [[-> _]|(answer & _ & [[_ ->]|[_ [->|[p ->]]]])]; done.
Qed.

Lemma fuelled_build_and_write ad_every playlist_directory fuel ad_file tracks :
  (length tracks < fuel)%nat →
  fuelled (build_and_write fs MutagenFile ad_every playlist_directory fuel
             ad_file tracks).
Proof.
  intros Hfuel. unfold build_and_write.
  apply fuelled_bind; [apply fuelled_record|]. intros _ _ _ _.
  apply fuelled_bind; [apply fuelled_lift|]. intros avg_duration _ _ _.
  apply fuelled_bind.
  { case_match; [|by intros w o w' [= <- _]].
    apply fuelled_bind; [apply fuelled_lift|].
    intros c w w1 [Hc _]%lift_done.
    apply fuelled_call_create_playlist; [|done].
    apply cadence_at_least_1 in Hc. lia. }
  intros playlist _ _ _.
  apply fuelled_bind; [apply fuelled_record|]. intros _ _ _ _.
  apply fuelled_bind; [apply fuelled_lift|]. intros c _ _ _.
  apply fuelled_bind; [|intros _ _ _ _; apply fuelled_write_playlist].
  case_match; [apply fuelled_record|].
  apply fuelled_bind; [apply fuelled_print_total|]. intros _ _ _ _.
  apply fuelled_record.
Qed.

(** With more fuel than tracks in any folder the run does not stop for
    want of fuel: the cadence that [main] passes is at least 1. *)
Lemma main_enough_fuel fuel ad_every music_directory playlist_directory w o w' :
  (∀ directory, (length (get_audio_files fs directory) < fuel)%nat) →
  main fs MutagenFile fuel ad_every music_directory playlist_directory w = (o, w') →
  o ≠ OutOfFuel.
Proof.
  intros Hfuel. revert w o w'. change (fuelled (main fs MutagenFile fuel ad_every
                                        music_directory playlist_directory)).
  unfold main.
  destruct (ad_every <? 0); [by intros w o w' [= <- _]|].
  destruct (negb (path_exists fs music_directory)); [by intros w o w' [= <- _]|].
  destruct (negb (path_exists fs playlist_directory)); [by intros w o w' [= <- _]|].
  apply fuelled_bind; [apply fuelled_choose|]. intros ads_folder _ _ _.
  apply fuelled_bind; [apply fuelled_choose|]. intros ad_file _ _ _.
  apply fuelled_bind; [apply fuelled_choose|]. intros music_folder _ _ _.
  apply fuelled_bind; [apply fuelled_record|]. intros _ _ _ _.
  specialize (Hfuel music_folder).
  destruct (get_audio_files fs music_folder) as [|track tracks].
  - apply fuelled_record.
  - by apply fuelled_build_and_write.
Qed.
End WholeRun.

(** * Further properties of the code *)

(** ** [seconds_to_hms] *)

Lemma Qfloor_unique x z :
  (inject_Z z <= x)%Q → (x < inject_Z (z + 1))%Q → Qfloor x = z.
Proof.
  intros Hlo Hhi.
  pose proof (Qfloor_le x) as Hlo'. pose proof (Qlt_floor x) as Hhi'.
  assert (inject_Z z < inject_Z (Qfloor x + 1))%Q as H1 by lra.
  assert (inject_Z (Qfloor x) < inject_Z (z + 1))%Q as H2 by lra.
  rewrite <- Zlt_Qlt in H1, H2. lia.
Qed.

Lemma Qfloor_div x n : 0 < n → Qfloor (x / inject_Z n) = Qfloor x / n.
Proof.
  intros Hn. destruct n as [|p|p]; try lia. destruct x as [a b].
  unfold Qdiv, Qmult, Qinv, inject_Z. simpl.
  rewrite Z.mul_1_r, Pos2Z.inj_mul, Z.div_div by lia. done.
Qed.

Lemma Qfloor_sub_Z x k : Qfloor (x - inject_Z k) = Qfloor x - k.
Proof.
  pose proof (Qfloor_le x) as Hlo. pose proof (Qlt_floor x) as Hhi.
  rewrite inject_Z_plus in Hhi.
  apply Qfloor_unique; unfold Z.sub;
    rewrite ?inject_Z_plus, ?inject_Z_opp; lra.
Qed.

Lemma int_of_float_Z z : int_of_float (inject_Z z) = z.
Proof.
  unfold int_of_float. destruct (Qle_bool 0 (inject_Z z));
    [apply Qfloor_Z|apply Qceiling_Z].
Qed.

Lemma int_of_float_nonneg x : (0 <= x)%Q → int_of_float x = Qfloor x.
Proof.
  intros Hx. unfold int_of_float. apply Qle_bool_iff in Hx. by rewrite Hx.
Qed.

Lemma pymod_range x n :
  0 < n → (0 <= pymod x n)%Q ∧ (pymod x n < inject_Z n)%Q.
Proof.
  intros Hn. unfold pymod, floordiv.
  pose proof (Qfloor_le (x / inject_Z n)) as Hlo.
  pose proof (Qlt_floor (x / inject_Z n)) as Hhi.
  rewrite inject_Z_plus in Hhi.
  assert (0 < inject_Z n)%Q as Hn' by (rewrite Zlt_Qlt in Hn; exact Hn).
  set (q := inject_Z (Qfloor (x / inject_Z n))) in *.
  assert (x == (x / inject_Z n) * inject_Z n)%Q as Hx by (field; lra).
  split.
  - assert (q * inject_Z n <= (x / inject_Z n) * inject_Z n)%Q
      by (apply Qmult_le_compat_r; lra). lra.
  - assert (x / inject_Z n < q + 1)%Q as Hhi' by exact Hhi.
    assert ((x / inject_Z n) * inject_Z n < (q + 1) * inject_Z n)%Q
      by (apply Qmult_lt_compat_r; lra).
    lra.
Qed.

Lemma hms_closed_form seconds :
  hms seconds
  = (Qfloor seconds / 3600, (Qfloor seconds `mod` 3600) / 60, Qfloor seconds `mod` 60).
Proof.
  unfold hms.
  destruct (pymod_range seconds 3600) as [H1 H2]; [lia|].
  destruct (pymod_range seconds 60) as [H3 H4]; [lia|].
  rewrite (int_of_float_nonneg (pymod seconds 60)) by done.
  unfold floordiv at 1 2. rewrite !int_of_float_Z.
  rewrite !Qfloor_div by lia.
  unfold pymod, floordiv. rewrite !Qfloor_div by lia.
  rewrite <- !inject_Z_mult, !Qfloor_sub_Z.
  by rewrite !Z.mod_eq by lia.
Qed.

(** The three numbers, for a total from 0 seconds to under 100 hours,
    where the float operations of [seconds_to_hms] are exact: hours,
    minutes and seconds add up to the seconds rounded down, the hours are
    between 0 and 99 and not cut at 24, and the minutes and the seconds are
    between 0 and 59. *)
Theorem hms_adds_up seconds :
  (0 <= seconds)%Q → (seconds < 360000)%Q →
  let '(h, m, s) := hms seconds in
  h * 3600 + m * 60 + s = Qfloor seconds
  ∧ 0 ≤ h < 100 ∧ 0 ≤ m < 60 ∧ 0 ≤ s < 60
  ∧ h = Qfloor seconds / 3600.
Proof.
  intros Hlo Hhi. rewrite hms_closed_form.
  assert (0 ≤ Qfloor seconds < 360000) as HF.
  { split.
    - rewrite <- (Qfloor_Z 0). by apply Qfloor_resp_le.
    - pose proof (Qfloor_le seconds).
      assert (inject_Z (Qfloor seconds) < inject_Z 360000)%Q as Hlt
        by (change (inject_Z 360000) with 360000%Q; lra).
      by rewrite <- Zlt_Qlt in Hlt. }
  revert HF. generalize (Qfloor seconds). intros F HF.
  Z.div_mod_to_equations. lia.
Qed.

Lemma hms_adds_up_witness :
  let '(h, m, s) := hms (7325 # 2) in
  h * 3600 + m * 60 + s = Qfloor (7325 # 2)
  ∧ 0 ≤ h < 100 ∧ 0 ≤ m < 60 ∧ 0 ≤ s < 60
  ∧ h = Qfloor (7325 # 2) / 3600.
Proof.
  apply (hms_adds_up (7325 # 2)); [unfold Qle; simpl; lia|reflexivity].
Defined.

Lemma string_length_append (s1 s2 : string) :
  String.length (s1 +:+ s2) = (String.length s1 + String.length s2)%nat.
Proof. induction s1 as [|c s1 IH]; simpl; [done|]. by rewrite IH. Qed.

Lemma pad_reads_back (d : Decimal.signed_int) :
  let digits := NilZero.string_of_int d in
  Z.of_int <$> NilZero.int_of_string
                 (if (String.length digits <? 2)%nat
                  then ("0" +:+ digits)%string else digits)
  = Some (Z.of_int d).
Proof.
  intros digits. subst digits.
  destruct (String.length (NilZero.string_of_int d) <? 2)%nat eqn:Hshort.
  - destruct d as [[|u|u|u|u|u|u|u|u|u|u]|[|u|u|u|u|u|u|u|u|u|u]];
      try destruct u; try discriminate Hshort; reflexivity.
  - destruct (Decimal.signed_int_eq_dec d (Decimal.Pos Decimal.Nil)) as [->|Hp];
      [discriminate Hshort|].
    destruct (Decimal.signed_int_eq_dec d (Decimal.Neg Decimal.Nil)) as [->|Hn];
      [reflexivity|].
    by rewrite NilZero.isi.
Qed.

Lemma format_02d_below_100 n : 0 ≤ n < 100 → String.length (format_02d n) = 2%nat.
Proof.
  intros Hn. rewrite <- (Z2Nat.id n) by lia.
  assert (Z.to_nat n < 100)%nat as Hk by lia.
  revert Hk. generalize (Z.to_nat n). clear Hn. intros k Hk.
  do 100 (destruct k as [|k]; [reflexivity|]). lia.
Qed.

(** A field of the report reads back as the number it was made from, and
    has at least two characters: exactly two for a number from 0 to 99. *)
Theorem format_02d_reads_back n :
  Z.of_int <$> NilZero.int_of_string (format_02d n) = Some n
  ∧ (2 ≤ String.length (format_02d n))%nat
  ∧ (0 ≤ n < 100 → String.length (format_02d n) = 2%nat).
Proof.
  split_and!.
  - unfold format_02d. rewrite pad_reads_back. by rewrite of_to.
  - unfold format_02d.
    destruct (String.length _ <? 2)%nat eqn:Hshort.
    + destruct (NilZero.string_of_int (Z.to_int n)) as [|c s] eqn:Hs; simpl; [|lia].
      destruct (Z.to_int n) as [[]|[]]; discriminate Hs.
    + apply Nat.ltb_ge in Hshort. exact Hshort.
  - apply format_02d_below_100.
Qed.

Lemma format_02d_reads_back_witness :
  String.length (format_02d 7) = 2%nat.
Proof.
  destruct (format_02d_reads_back 7) as (_ & _ & Hlen). apply Hlen. lia.
Defined.

(** The report has eight characters for a total from 0 seconds to under
    100 hours, and never fewer. *)
Theorem seconds_to_hms_length seconds :
  (8 ≤ String.length (seconds_to_hms seconds))%nat
  ∧ ((0 <= seconds)%Q → (seconds < 360000)%Q →
     String.length (seconds_to_hms seconds) = 8%nat).
Proof.
  unfold seconds_to_hms. rewrite hms_closed_form.
  set (h := Qfloor seconds / 3600).
  set (m := (Qfloor seconds `mod` 3600) / 60).
  set (s := Qfloor seconds `mod` 60).
  rewrite !string_length_append. simpl. split.
  - destruct (format_02d_reads_back h) as (_ & ? & _).
    destruct (format_02d_reads_back m) as (_ & ? & _).
    destruct (format_02d_reads_back s) as (_ & ? & _). lia.
  - intros Hlo Hhi.
    assert (0 ≤ Qfloor seconds < 360000) as HF.
    { split.
      - rewrite <- (Qfloor_Z 0). by apply Qfloor_resp_le.
      - pose proof (Qfloor_le seconds).
        assert (inject_Z (Qfloor seconds) < inject_Z 360000)%Q as Hlt
          by (change (inject_Z 360000) with 360000%Q; lra).
        by rewrite <- Zlt_Qlt in Hlt. }
    rewrite !format_02d_below_100; [done| | |];
      subst h m s; Z.div_mod_to_equations; lia.
Qed.

Lemma seconds_to_hms_length_witness :
  String.length (seconds_to_hms 330) = 8%nat.
Proof.
  destruct (seconds_to_hms_length 330) as [_ Hlen].
  apply Hlen; [unfold Qle; simpl; lia|reflexivity].
Defined.

Example hms_examples :
  seconds_to_hms 330 = "00:05:30"%string
  ∧ seconds_to_hms (7325 # 2) = "01:01:02"%string
  ∧ seconds_to_hms 360000 = "100:00:00"%string
  ∧ seconds_to_hms (-1 # 2) = "-1:59:59"%string.
Proof. vm_compute. done. Qed.

(** ** The picker and [select_value] *)

Lemma picker_run_inv app events r rest :
  ListPicker.run app events = (r, rest) →
  ListPicker.selection app = None →
  rest `suffix_of` events
  ∧ ∀ app', r = Some app' →
      ListPicker.selection app' = None
      ∨ ∃ label, ListPicker.selection app' = Some label
                 ∧ label ∈ ListPicker.values app.
Proof.
  revert app. induction events as [|ev events IH]; intros app Hrun Hnone.
  - simpl in Hrun. simplify_eq. split; [done|]. intros ? [=].
  - cbn [ListPicker.run] in Hrun.
    assert (ListPicker.handle app ev = app
            ∨ ListPicker.running (ListPicker.handle app ev) = false
              ∧ (ListPicker.selection (ListPicker.handle app ev) = None
                 ∨ ∃ label, ListPicker.selection (ListPicker.handle app ev) = Some label
                            ∧ label ∈ ListPicker.values app)) as [Hsame|[Hexit Hsel]].
    { destruct ev as [key|item]; simpl.
      - unfold ListPicker.on_key. case_decide; [|by left].
        right. split; [done|]. by left.
      - unfold ListPicker.on_list_view_selected.
        destruct (ListPicker.values app !! item) as [label|] eqn:Hitem; [|by left].
        right. split; [done|]. right. exists label. split; [done|].
        by eapply list_elem_of_lookup_2. }
    + rewrite Hsame in Hrun. destruct (ListPicker.running app).
      * apply IH in Hrun as [Hsuffix Hsel]; [|done].
        split; [by apply suffix_cons_r|done].
      * simplify_eq. split; [by apply suffix_cons_r|].
        intros ? [= <-]. by left.
    + rewrite Hexit in Hrun. simplify_eq.
      split; [by apply suffix_cons_r|]. by intros ? [= <-].
Qed.

(** ** Audio files *)

Lemma lower_ascii_dot c : lower_ascii c = "."%char ↔ c = "."%char.
Proof.
  split; [|by intros ->].
  destruct c as [[] [] [] [] [] [] [] []]; vm_compute; congruence.
Qed.

Lemma lower_ascii_idemp c : lower_ascii (lower_ascii c) = lower_ascii c.
Proof. destruct c as [[] [] [] [] [] [] [] []]; reflexivity. Qed.

Lemma lower_idemp s : lower (lower s) = lower s.
Proof.
  induction s as [|c s IH]; [done|]. simpl. by rewrite lower_ascii_idemp, IH.
Qed.

Lemma lower_length s : String.length (lower s) = String.length s.
Proof. induction s as [|c s IH]; [done|]. simpl. by rewrite IH. Qed.

Lemma lower_append s1 s2 : lower (s1 +:+ s2) = (lower s1 +:+ lower s2)%string.
Proof. induction s1 as [|c s1 IH]; [done|]. simpl. by rewrite IH. Qed.

Lemma from_last_dot_lower s :
  from_last_dot (lower s) = lower <$> from_last_dot s.
Proof.
  induction s as [|c s IH]; [done|]. simpl. rewrite IH.
  destruct (from_last_dot s); [done|]. simpl.
  destruct (decide (c = "."%char)) as [->|Hc]; [done|].
  case_decide as Hl; [|done]. apply (proj1 (lower_ascii_dot c)) in Hl. done.
Qed.

Lemma from_last_dot_append s1 s2 r :
  from_last_dot s2 = Some r → from_last_dot (s1 +:+ s2) = Some r.
Proof. intros Hr. induction s1 as [|c s1 IH]; [done|]. simpl. by rewrite IH. Qed.

Lemma suffix_lower directory name :
  suffix (Path.joinpath directory (lower name))
  = lower (suffix (Path.joinpath directory name)).
Proof.
  unfold suffix, Path.joinpath, Path.name. simpl. rewrite !last_snoc. simpl.
  rewrite from_last_dot_lower. destruct (from_last_dot name) as [r|]; [|done].
  simpl. rewrite !lower_length. by repeat case_decide.
Qed.

Lemma audio_ext_shape ext :
  ext ∈ AUDIO_EXTS →
  from_last_dot ext = Some ext ∧ (2 ≤ String.length ext)%nat.
Proof.
  unfold AUDIO_EXTS. rewrite !elem_of_union, !elem_of_singleton.
  intros H. repeat destruct H as [H|H]; subst; split; try reflexivity;
    simpl; lia.
Qed.

(** Whether a path is an audio file depends on its final component alone,
    and not on the case of its letters; it is one when the component is a
    non-empty stem followed by one of the seven extensions in any case, and
    it is none when the component has no dot or only a leading one. *)
Theorem is_audio_file_by_extension directory name :
  (∀ other, is_audio_file (Path.joinpath other name)
            = is_audio_file (Path.joinpath directory name))
  ∧ is_audio_file (Path.joinpath directory (lower name))
    = is_audio_file (Path.joinpath directory name)
  ∧ (∀ stem ext, name = (stem +:+ ext)%string → stem ≠ EmptyString →
       lower ext ∈ AUDIO_EXTS →
       is_audio_file (Path.joinpath directory name) = true)
  ∧ (from_last_dot name = None →
     is_audio_file (Path.joinpath directory name) = false)
  ∧ (∀ rest, name = String "." rest → from_last_dot rest = None →
       is_audio_file (Path.joinpath directory name) = false).
Proof.
  assert (∀ d, Path.name (Path.joinpath d name) = name) as Hname.
  { intros d. unfold Path.name, Path.joinpath. simpl. by rewrite last_snoc. }
  split_and!.
  - intros other. unfold is_audio_file, suffix. by rewrite !Hname.
  - unfold is_audio_file. by rewrite suffix_lower, lower_idemp.
  - intros stem ext -> Hstem Hext.
    destruct (audio_ext_shape _ Hext) as [Hdot Hlen].
    unfold is_audio_file. apply bool_decide_eq_true.
    unfold suffix. rewrite Hname.
    pose proof (from_last_dot_lower (stem +:+ ext)) as Hlow.
    rewrite lower_append, (from_last_dot_append _ _ _ Hdot) in Hlow.
    destruct (from_last_dot (stem +:+ ext)) as [r|]; [|done].
    injection Hlow as Hr. rewrite lower_length in Hlen.
    assert (String.length r = String.length ext) as Hlr.
    { by rewrite <- (lower_length r), <- Hr, lower_length. }
    rewrite string_length_append, Hlr.
    case_decide as H1.
    { destruct stem; [done|]. simpl in H1. lia. }
    case_decide as H2; [lia|]. by rewrite <- Hr.
  - intros Hnone. unfold is_audio_file, suffix. rewrite Hname, Hnone. done.
  - intros rest -> Hnone. unfold is_audio_file, suffix. rewrite Hname.
    simpl. rewrite Hnone. simpl. by rewrite decide_True by done.
Qed.

Lemma is_audio_file_by_extension_witness :
  is_audio_file (Path.joinpath Sample.rock "Intro.FLAC") = true
  ∧ is_audio_file (Path.joinpath Sample.rock "README") = false
  ∧ is_audio_file (Path.joinpath Sample.rock ".ogg") = false.
Proof.
  split_and!.
  - destruct (is_audio_file_by_extension Sample.rock "Intro.FLAC")
      as (_ & _ & Hext & _).
    apply (Hext "Intro" ".FLAC")%string; [reflexivity|discriminate|].
    vm_compute. reflexivity.
  - destruct (is_audio_file_by_extension Sample.rock "README")
      as (_ & _ & _ & Hnone & _).
    apply Hnone. reflexivity.
  - destruct (is_audio_file_by_extension Sample.rock ".ogg")
      as (_ & _ & _ & _ & Hhidden).
    apply (Hhidden "ogg"%string); reflexivity.
Defined.

Lemma string_ltb_total x y :
  String.eqb x y = false → String.ltb x y = false → String.ltb y x = true.
Proof.
  unfold String.ltb. rewrite (String.compare_antisym y x).
  intros Hne Hlt. apply String.eqb_neq in Hne.
  destruct (String.compare x y) eqn:Hcmp; simpl; try done.
  by apply String.compare_eq_iff in Hcmp.
Qed.

Lemma parts_leb_total a b : parts_leb a b = false → parts_leb b a = true.
Proof.
  revert b. induction a as [|x a IH]; intros [|y b]; simpl; try done.
  rewrite (String.eqb_sym y x).
  destruct (String.eqb x y) eqn:Heq; [apply IH|].
  by apply string_ltb_total.
Qed.

Lemma insert_sorted_perm p l : insert_sorted p l ≡ₚ p :: l.
Proof.
  induction l as [|q l IH]; simpl; [done|].
  destruct (path_leb p q); [done|]. rewrite IH. apply perm_swap.
Qed.

Lemma sorted_perm l : sorted l ≡ₚ l.
Proof.
  induction l as [|p l IH]; simpl; [done|].
  by rewrite insert_sorted_perm, IH.
Qed.

Lemma insert_sorted_ordered p l :
  Sorted.Sorted (λ a b, path_leb a b = true) l →
  Sorted.Sorted (λ a b, path_leb a b = true) (insert_sorted p l).
Proof.
  induction 1 as [|q l Hl IH Hhd]; simpl.
  - repeat constructor.
  - destruct (path_leb p q) eqn:Hpq.
    + constructor; [by constructor|by constructor].
    + constructor; [done|].
      apply parts_leb_total in Hpq.
      destruct Hhd as [|r l Hqr]; simpl; [by constructor|].
      destruct (path_leb p r); by constructor.
Qed.

Lemma sorted_ordered l : Sorted.Sorted (λ a b, path_leb a b = true) (sorted l).
Proof.
  induction l as [|p l IH]; simpl; [constructor|].
  by apply insert_sorted_ordered.
Qed.

(** [get_audio_files] returns the entries of the directory that are files
    with an audio extension, each as often as the listing has it, none
    else, in ascending order of their paths. *)
Theorem get_audio_files_sorted_audio_files fs directory :
  get_audio_files fs directory
  ≡ₚ filter (λ p, is_file fs p && is_audio_file p) (iterdir fs directory)
  ∧ (∀ p, p ∈ get_audio_files fs directory
          ↔ p ∈ iterdir fs directory ∧ is_file fs p = true ∧ is_audio_file p = true)
  ∧ Sorted.Sorted (λ a b, path_leb a b = true) (get_audio_files fs directory)
  ∧ (length (get_audio_files fs directory) ≤ length (iterdir fs directory))%nat
  ∧ (iterdir fs directory = [] → get_audio_files fs directory = []).
Proof.
  unfold get_audio_files. split_and!.
  - apply sorted_perm.
  - intros p. rewrite sorted_perm, list_elem_of_filter.
    rewrite andb_True, !Is_true_true. tauto.
  - apply sorted_ordered.
  - rewrite sorted_perm. apply length_filter.
  - by intros ->.
Qed.

Lemma get_audio_files_sorted_audio_files_witness :
  get_audio_files Sample.fs Sample.playlists = [].
Proof.
  destruct (get_audio_files_sorted_audio_files Sample.fs Sample.playlists)
    as (_ & _ & _ & _ & Hempty).
  apply Hempty. reflexivity.
Defined.

(** ** From the chosen name back to a path *)

Lemma filter_by_unique_key {A B} `{EqDecision B} (f : A → B) (l : list A) x :
  NoDup (f <$> l) → x ∈ l → filter (λ y, f y = f x) l = [x].
Proof.
  induction l as [|a l IH]; intros Hnodup Hin; [by apply elem_of_nil in Hin|].
  rewrite fmap_cons in Hnodup. apply NoDup_cons in Hnodup as [Hfresh Hnodup].
  apply elem_of_cons in Hin as [->|Hin].
  - rewrite filter_cons_True by done. f_equal.
    apply filter_nothing, Forall_forall. intros y Hy Heq.
    apply Hfresh. rewrite <- Heq. by apply list_elem_of_fmap_2.
  - rewrite filter_cons_False; [by apply IH|].
    intros Ha. apply Hfresh. rewrite Ha. by apply list_elem_of_fmap_2.
Qed.

Section Resolution.
Variable fs : FileSystem.

Lemma select_value_done instruction values w answer w' :
  select_value instruction values w = (Done answer, w') →
  (answer = None ∨ ∃ label, answer = Some label ∧ label ∈ values)
  ∧ files w' = files w ∧ random w' = random w
  ∧ log w' = log w ++ [Select instruction values answer].
Proof.
  unfold select_value.
  destruct (ListPicker.run _ _) as [[app|] rest] eqn:Hrun; [|done].
  apply picker_run_inv in Hrun as [_ Hsel]; [|done].
  intros [= <- <-]. split; [|done].
  destruct (Hsel app eq_refl) as [->|(label & -> & Hin)]; [by left|].
  right. by exists label.
Qed.

Lemma unpack_one_done paths w p w' :
  unpack_one paths w = (Done p, w') → paths = [p] ∧ w' = w.
Proof.
  unfold unpack_one, lift, mret, M_ret.
  destruct paths as [|q [|r paths]]; intros; by simplify_eq.
Qed.

Lemma choose_done_inv instruction values required directory w p w' :
  choose fs instruction values required directory w = (Done p, w') →
  ∃ name, name ∈ values ∧ name ≠ EmptyString
    ∧ named fs directory name = [p]
    ∧ files w' = files w ∧ random w' = random w
    ∧ log w' = log w ++ [Select instruction values (Some name)].
Proof.
  unfold choose.
  intros (answer & w1 & Hsel & Hrest)%bind_done.
  apply select_value_done in Hsel as (Hanswer & Hfiles & Hrandom & Hlog).
  destruct answer as [[|c name]|]; [done| |done].
  apply unpack_one_done in Hrest as [Hnamed ->].
  destruct Hanswer as [|(label & [= <-] & Hin)]; [done|].
  by exists (String c name).
Qed.

(** A selection step that returns a path returns an entry of the directory
    it resolves the name in, of the kind whose names were offered (a
    directory for the two folder steps, a file for the ad file), with the
    chosen name, which is not empty; the step changes neither the files nor
    the generator. *)
Theorem choose_returns_an_offered_entry (kind : Path → bool)
    instruction required directory w p w' :
  choose fs instruction (Path.name <$> filter (λ q, kind q) (iterdir fs directory))
    required directory w = (Done p, w') →
  p ∈ iterdir fs directory ∧ kind p = true
  ∧ Path.name p ≠ EmptyString
  ∧ log w' = log w ++ [Select instruction
                         (Path.name <$> filter (λ q, kind q) (iterdir fs directory))
                         (Some (Path.name p))]
  ∧ files w' = files w ∧ random w' = random w.
Proof.
  intros (name & Hin & Hne & Hnamed & Hfiles & Hrandom & Hlog)%choose_done_inv.
  apply list_elem_of_fmap in Hin as (q & -> & Hq).
  apply list_elem_of_filter in Hq as [Hkind Hq].
  assert (q ∈ named fs directory (Path.name q)) as Hq'.
  { unfold named. by apply list_elem_of_filter. }
  rewrite Hnamed in Hq'. apply list_elem_of_singleton in Hq' as ->.
  split_and!; try done. by apply Is_true_true.
Qed.

(** The unpacking [(x,) = [path for path in directory.iterdir() if
    path.name == name]] after a selection: it gives a path exactly when
    one entry of the directory has the chosen name, and then that entry;
    with no such entry, or more than one, it raises [ValueError].  When the
    entries of the directory have different names, the name of any entry
    unpacks to that entry. *)
Theorem named_unpacks_the_one_entry directory name w :
  (∀ p w', unpack_one (named fs directory name) w = (Done p, w')
           ↔ named fs directory name = [p] ∧ w' = w)
  ∧ (length (named fs directory name) ≠ 1%nat →
     unpack_one (named fs directory name) w = (Raised ValueError, w))
  ∧ (name ∉ Path.name <$> iterdir fs directory →
     unpack_one (named fs directory name) w = (Raised ValueError, w))
  ∧ (NoDup (Path.name <$> iterdir fs directory) →
     ∀ q, q ∈ iterdir fs directory → Path.name q = name →
       unpack_one (named fs directory name) w = (Done q, w)).
Proof.
  split_and!.
  - intros p w'. split; [apply unpack_one_done|].
    intros [-> ->]. done.
  - intros Hlen. unfold unpack_one.
    destruct (named fs directory name) as [|p [|q paths]]; done.
  - intros Hnotin. unfold named.
    rewrite filter_nothing; [done|].
    apply Forall_forall. intros p Hp Hname. apply Hnotin.
    rewrite <- Hname. by apply list_elem_of_fmap_2.
  - intros Hnodup q Hq <-. unfold named.
    by rewrite (filter_by_unique_key Path.name _ q Hnodup Hq).
Qed.

End Resolution.

Lemma choose_returns_an_offered_entry_witness :
  Sample.rock ∈ iterdir Sample.fs Sample.music
  ∧ is_dir Sample.fs Sample.rock = true.
Proof.
  destruct (choose_returns_an_offered_entry Sample.fs (is_dir Sample.fs)
              "Select the music folder" "A music folder must be chosen."
              Sample.music
              (MkWorld [ListViewSelected 1] ∅ Sample.zeros [])
              Sample.rock
              (MkWorld [] ∅ Sample.zeros
                 [Select "Select the music folder" ["ads"; "rock"]%string
                    (Some "rock"%string)]))
    as (Hin & Hdir & _).
  - vm_compute. reflexivity.
  - split; [exact Hin|exact Hdir].
Defined.

Lemma named_unpacks_the_one_entry_witness :
  unpack_one (named Sample.fs Sample.rock "a.mp3") (MkWorld [] ∅ Sample.zeros [])
  = (Done (Sample.song "a"), MkWorld [] ∅ Sample.zeros []).
Proof.
  destruct (named_unpacks_the_one_entry Sample.fs Sample.rock "a.mp3"
              (MkWorld [] ∅ Sample.zeros [])) as (_ & _ & _ & Hunique).
  apply Hunique.
  - apply (bool_decide_unpack _). vm_compute. exact I.
  - apply (bool_decide_unpack _). vm_compute. exact I.
  - reflexivity.
Defined.

(** ** More on [create_playlist] *)

(** The call returns exactly when the cadence is positive or there is no
    track: with a cadence of 0 or below and a track to play the loop never
    ends; with no track it returns the empty playlist at once. *)
Theorem create_playlist_returns_iff g tracks ad_file c :
  ((∃ out, returns g tracks ad_file c out) ↔ 0 < c ∨ tracks = [])
  ∧ (tracks = [] → ∃ out, returns g tracks ad_file c out ∧ playlist_of out = []).
Proof.
  split; [split|].
  - intros (out & fuel & Hout).
    destruct (Z.lt_ge_cases 0 c) as [|Hc]; [by left|]. right.
    destruct tracks as [|t tracks]; [done|].
    rewrite create_playlist_stuck in Hout; [done|lia|done].
  - intros [Hc| ->].
    + eexists. exists (S (length tracks)).
      apply create_playlist_interleaved; [done|lia].
    + eexists. exists 1%nat. apply create_playlist_empty.
  - intros ->. eexists. split; [exists 1%nat; apply create_playlist_empty|done].
Qed.

Lemma create_playlist_returns_iff_witness :
  ∃ out, returns Sample.source [] (Some Sample.jingle) (-3) out
         ∧ playlist_of out = [].
Proof.
  destruct (create_playlist_returns_iff Sample.source [] (Some Sample.jingle) (-3))
    as [_ Hempty].
  apply Hempty. reflexivity.
Defined.

Lemma interleaved_short {A} c (ad : option A) (l : list A) :
  (length l < c)%nat → interleaved c ad l = l.
Proof.
  intros Hlen. destruct l as [|x l]; [done|].
  rewrite interleaved_step by (lia || done).
  rewrite drop_ge by lia. rewrite interleaved_nil, app_nil_r.
  unfold with_ad. rewrite take_ge by lia. case_decide; [lia|done].
Qed.

Lemma interleaved_exact {A} c (ad : option A) (l : list A) :
  l ≠ [] → length l = c → interleaved c ad l = l ++ option_list ad.
Proof.
  intros Hne Hlen. rewrite interleaved_step; [|destruct l; [done|simpl in *; lia]|done].
  rewrite drop_ge by lia. rewrite interleaved_nil, app_nil_r.
  unfold with_ad. rewrite take_ge by lia. by case_decide.
Qed.

(** With a cadence above the number of tracks no ad is inserted, and with
    a cadence equal to it the ad comes once, at the end. *)
Theorem create_playlist_few_tracks g tracks ad c :
  tracks ≠ [] → len tracks ≤ c →
  ∃ out, returns g tracks (Some ad) c out
    ∧ (len tracks < c → playlist_of out = tracks_after out)
    ∧ (len tracks = c → playlist_of out = tracks_after out ++ [ad]).
Proof.
  intros Hne Hc.
  assert (0 < c) by (destruct tracks; [done|unfold len in *; simpl in *; lia]).
  eexists. split_and!.
  - exists (S (length tracks)). apply create_playlist_interleaved; [done|lia].
  - intros Hlt. cbn [playlist_of tracks_after]. apply interleaved_short.
    rewrite shuffle_length. unfold len in *. lia.
  - intros Heq. cbn [playlist_of tracks_after].
    rewrite (interleaved_exact _ (Some ad)); [done| |].
    + intros Hnil. apply (f_equal length) in Hnil.
      rewrite shuffle_length in Hnil. by destruct tracks.
    + rewrite shuffle_length. unfold len in *. lia.
Qed.

Lemma create_playlist_few_tracks_witness :
  ∃ out, returns Sample.zeros Sample.three (Some Sample.jingle) 3 out
    ∧ playlist_of out = tracks_after out ++ [Sample.jingle].
Proof.
  destruct (create_playlist_few_tracks Sample.zeros Sample.three Sample.jingle 3)
    as (out & Hout & _ & Hexact).
  - discriminate.
  - unfold len. simpl. lia.
  - exists out. split; [exact Hout|]. apply Hexact. reflexivity.
Defined.

(** ** More on the rounding *)

Lemma round_floor_or_next x :
  round_half_even x = Qfloor x ∨ round_half_even x = Qfloor x + 1.
Proof.
  unfold round_half_even. destruct (_ ?= _)%Q; [destruct (Z.even _)| |]; auto.
Qed.

Lemma round_monotone x y : (x <= y)%Q → round_half_even x ≤ round_half_even y.
Proof.
  intros Hxy. pose proof (Qfloor_resp_le _ _ Hxy) as Hf.
  destruct (Z.eq_dec (Qfloor x) (Qfloor y)) as [Heq|Hne].
  - unfold round_half_even. rewrite <- Heq. set (f := Qfloor x) in *.
    destruct (x - inject_Z f ?= 1 # 2)%Q eqn:Hx;
      destruct (y - inject_Z f ?= 1 # 2)%Q eqn:Hy;
      first [apply (proj2 (Qeq_alt _ _)) in Hx
            |apply (proj2 (Qlt_alt _ _)) in Hx
            |apply (proj2 (Qgt_alt _ _)) in Hx];
      first [apply (proj2 (Qeq_alt _ _)) in Hy
            |apply (proj2 (Qlt_alt _ _)) in Hy
            |apply (proj2 (Qgt_alt _ _)) in Hy];
      try destruct (Z.even f); try lia; exfalso; lra.
  - destruct (round_floor_or_next x) as [-> | ->],
      (round_floor_or_next y) as [-> | ->]; lia.
Qed.

(** Rounding half to even takes an integer to itself, a number to an
    integer no more than a half away, and keeps the order. *)
Theorem round_to_nearest x :
  (∀ z, round_half_even (inject_Z z) = z)
  ∧ (Qabs (x - inject_Z (round_half_even x)) <= 1 # 2)%Q
  ∧ (∀ y, (x <= y)%Q → round_half_even x ≤ round_half_even y).
Proof.
  split_and!.
  - intros z. unfold round_half_even. rewrite Qfloor_Z.
    assert ((inject_Z z - inject_Z z ?= 1 # 2)%Q = Lt) as ->; [|done].
    apply (proj1 (Qlt_alt _ _)). lra.
  - apply round_half_even_nearest.
  - apply round_monotone.
Qed.

Lemma round_to_nearest_witness : round_half_even (5 # 2) ≤ round_half_even (7 # 2).
Proof.
  destruct (round_to_nearest (5 # 2)) as (_ & _ & Hmono).
  apply Hmono. unfold Qle. simpl. lia.
Defined.

(** ** More on the run *)

Section MoreOnTheRun.
Variable fs : FileSystem.
Variable MutagenFile : Path → result (option float).


Lemma bind_settles {A} (m : M A) (f : A → M ()) (file : string) w o w' :
  (∀ w0 o1 w1, m w0 = (o1, w1) → files w1 = files w0) →
  (∀ a w1, f a w1 = (o, w') → settled fs file w1 o w') →
  (m ≫= f) w = (o, w') →
  settled fs file w o w'.
Proof.
  intros Hm Hf [(a & w1 & H1 & H2)|(o1 & H1 & _)]%bind_inv.
  - unfold settled. rewrite <- (Hm _ _ _ H1). by eapply Hf.
  - left. by eapply Hm.
Qed.

Lemma record_files s w o w' : record s w = (o, w') → files w' = files w.
Proof. by intros [= _ <-]. Qed.

Lemma lift_files {A} (r : result A) w o w' : lift r w = (o, w') → files w' = files w.
Proof. unfold lift. destruct r; by intros [= _ <-]. Qed.

Lemma print_total_files total_duration w o w' :
  print_total total_duration w = (o, w') → files w' = files w.
Proof.
  unfold print_total. destruct (is_finite _); [apply record_files|apply lift_files].
Qed.

Lemma choose_files instruction values required directory w o w' :
  choose fs instruction values required directory w = (o, w') →
  files w' = files w.
Proof. by intros [? _]%choose_inv. Qed.

Lemma write_playlist_settles playlist_directory playlist w o w' :
  write_playlist fs playlist_directory playlist w = (o, w') →
  settled fs (Path.str (Path.joinpath playlist_directory "jukebox.m3u")) w o w'.
Proof.
  rewrite write_playlist_run.
  destruct (open_raises fs _); [intros [= <- <-]; by left|].
  destruct (write_raises fs _ _) as [[e written]|] eqn:Hwrite;
    intros [= <- <-]; right.
  - eexists. split; [done|]. right. by eexists e, _.
  - eexists. split; [done|]. by left.
Qed.

(** Whatever the outcome of a run, it leaves every file but [jukebox.m3u]
    of the playlist directory as it was; that file is as it was too, or
    the run ended normally, or it ended by the exception of a write, with
    what had reached the file in it.  So a run that ends by an exit,
    waiting or for want of fuel leaves all the files, and so does every run
    that does not end normally when no write raises. *)
Theorem main_writes_only_the_playlist fuel ad_every music_directory
    playlist_directory w o w' :
  main fs MutagenFile fuel ad_every music_directory playlist_directory w = (o, w') →
  let file := Path.str (Path.joinpath playlist_directory "jukebox.m3u") in
  (∀ other, other ≠ file → files w' !! other = files w !! other)
  ∧ (files w' = files w
     ∨ ∃ content, files w' = <[file := content]> (files w)
         ∧ (o = Done ()
            ∨ ∃ e text, o = Raised e
                ∧ write_raises fs file text = Some (e, content)))
  ∧ (o ≠ Done () → (∀ e, o ≠ Raised e) → files w' = files w)
  ∧ (o ≠ Done () → (∀ text, write_raises fs file text = None) →
     files w' = files w).
Proof.
  intros Hrun file.
  assert (settled fs file w o w') as Hsettled.
  { revert Hrun. unfold main.
    destruct (ad_every <? 0); [intros [= _ <-]; by left|].
    destruct (negb (path_exists fs music_directory)); [intros [= _ <-]; by left|].
    destruct (negb (path_exists fs playlist_directory)); [intros [= _ <-]; by left|].
    apply bind_settles; [apply choose_files|]. intros ads_folder w1.
    apply bind_settles; [apply choose_files|]. intros ad_file w2.
    apply bind_settles; [apply choose_files|]. intros music_folder w3.
    apply bind_settles; [apply record_files|]. intros _ w4.
    destruct (get_audio_files fs music_folder) as [|track tracks].
    { intros Hprint. left. by eapply record_files. }
    unfold build_and_write.
    apply bind_settles; [apply record_files|]. intros _ w5.
    apply bind_settles; [apply lift_files|]. intros avg_duration w6.
    apply bind_settles.
    { intros w0 o1 w1'. case_match; [|by intros [= _ <-]].
      intros [(c & w7 & H1%lift_files & H2)|(o2 & H1%lift_files & _)]%bind_inv;
        [|done].
      unfold call_create_playlist in H2.
      destruct (create_playlist _ _ _ _ _); injection H2 as _ <-; done. }
    intros playlist w7.
    apply bind_settles; [apply record_files|]. intros _ w8.
    apply bind_settles; [apply lift_files|]. intros c w9.
    apply bind_settles; [|intros _ w10; apply write_playlist_settles].
    intros w0 o1 w1'. case_match; [apply record_files|].
    intros [([] & w11 & H1%print_total_files & H2%record_files)
           |(o2 & H1%print_total_files & _)]%bind_inv; congruence. }
  split_and!.
  - intros other Hother.
    destruct Hsettled as [->|(content & -> & _)]; [done|].
    by rewrite lookup_insert_ne.
  - exact Hsettled.
  - intros Hdone Hraised.
    destruct Hsettled as [|(content & _ & [->|(e & text & -> & _)])]; [done|done|].
    by destruct (Hraised e).
  - intros Hdone Hwrites.
    destruct Hsettled as [|(content & _ & [->|(e & text & _ & Hwrite)])];
      [done|done|].
    rewrite Hwrites in Hwrite. done.
Qed.


End MoreOnTheRun.

Example run_on_a_full_disk :
  ∃ w', main Sample.full_disk Sample.oracle 4 15 Sample.music Sample.playlists
          (MkWorld Sample.picks_all ∅ Sample.source []) = (Raised OSError, w')
    ∧ files w' = {[ "/srv/playlists/jukebox.m3u"%string := EmptyString ]}.
Proof. eexists. split; vm_compute; reflexivity. Qed.

Example run_with_endless_tracks :
  ∃ w', main Sample.fs (λ _, Ok (Some infinity)) 4 15 Sample.music Sample.playlists
          (MkWorld Sample.picks_all ∅ Sample.source []) = (Raised ValueError, w')
    ∧ files w' = ∅
    ∧ Assemble 1 ∈ log w'.
Proof.
  eexists. split; [vm_compute; reflexivity|]. split; [reflexivity|].
  cbn [log]. do 5 apply list_elem_of_further. apply list_elem_of_here.
Qed.

Lemma main_writes_only_the_playlist_witness :
  ∃ w', main Sample.fs Sample.oracle 4 15 Sample.music Sample.playlists
          (MkWorld Sample.picks_all ∅ Sample.source []) = (Done (), w')
    ∧ files w' !! "/srv/music/rock/a.mp3"%string = None.
Proof.
  destruct (main Sample.fs Sample.oracle 4 15 Sample.music Sample.playlists
              (MkWorld Sample.picks_all ∅ Sample.source []))
    as [o w'] eqn:Hrun.
  destruct (main_writes_only_the_playlist _ _ _ _ _ _ _ _ _ Hrun) as [Hother _].
  exists w'. split.
  - vm_compute in Hrun. by injection Hrun as <- _.
  - rewrite Hother; [reflexivity|discriminate].
Defined.



Lemma main_done_witness :
  ∃ w' playlist,
    main Sample.fs Sample.oracle 4 15 Sample.music Sample.playlists
      (MkWorld Sample.picks_all ∅ Sample.source []) = (Done (), w')
    ∧ files w' = {[ "/srv/playlists/jukebox.m3u"%string :=
                    String.concat newline
                      ((λ p, Path.str (from_grandparent p)) <$> playlist) ]}.
Proof.
  destruct (main Sample.fs Sample.oracle 4 15 Sample.music Sample.playlists
              (MkWorld Sample.picks_all ∅ Sample.source []))
    as [o w'] eqn:Hrun.
  assert (o = Done ()) as -> by (vm_compute in Hrun; by injection Hrun as <- _).
  destruct (main_done _ _ _ _ _ _ _ _ Hrun) as [[Hprint _]|(playlist & _ & Hfiles)].
  - exfalso. vm_compute in Hrun. injection Hrun as <-.
    apply list_elem_of_In in Hprint. simpl in Hprint.
    repeat (destruct Hprint as [Hprint|Hprint]; [discriminate Hprint|]).
    exact Hprint.
  - exists w', playlist. split; [reflexivity|]. rewrite Hfiles. reflexivity.
Defined.

Lemma main_enough_fuel_witness :
  (main Sample.fs Sample.oracle 5 15 Sample.music Sample.playlists
     (MkWorld Sample.picks_all ∅ Sample.source [])).1 ≠ OutOfFuel.
Proof.
  eapply (main_enough_fuel Sample.fs Sample.oracle 5 15 Sample.music
            Sample.playlists (MkWorld Sample.picks_all ∅ Sample.source [])).
  - intros directory. unfold get_audio_files.
    rewrite sorted_perm.
    eapply Nat.le_lt_trans; [apply length_filter|].
    simpl. repeat case_decide; simpl; lia.
  - apply surjective_pairing.
Defined.

(** ** The lines of the playlist file *)

Lemma entry_line_two_levels directory folder name :
  entry_line (Path.joinpath (Path.joinpath directory folder) name)
  = Ok (folder +:+ "/" +:+ name)%string.
Proof.
  unfold entry_line. rewrite relative_to_grandparent.
  unfold from_grandparent, Path.joinpath. simpl.
  rewrite <- app_assoc, !length_app. simpl.
  replace (length (Path.parts directory) + 2 - 2)%nat
    with (length (Path.parts directory)) by lia.
  by rewrite drop_app_length.
Qed.

(** The line of an entry two levels below a directory is the folder, a
    slash and the file name, whatever the directory; no entry makes the
    line raise, and an entry with a single component gives that
    component. *)
Theorem entry_line_is_folder_and_name directory folder name :
  entry_line (Path.joinpath (Path.joinpath directory folder) name)
  = Ok (folder +:+ "/" +:+ name)%string
  ∧ (∀ path, ∃ line, entry_line path = Ok line)
  ∧ (∀ anchored, entry_line (Path.Build anchored [name]) = Ok name).
Proof.
  split_and!.
  - apply entry_line_two_levels.
  - intros path. unfold entry_line. rewrite relative_to_grandparent. by eexists.
  - intros anchored. unfold entry_line. by rewrite relative_to_grandparent.
Qed.

Lemma interleaved_elem {A} c (a : A) (l : list A) x :
  (0 < c)%nat → x ∈ interleaved c (Some a) l → x ∈ l ∨ x = a.
Proof.
  intros Hc. induction l as [|l Hl IH] using (chunk_ind c Hc).
  { intros Hx. by apply elem_of_nil in Hx. }
  rewrite interleaved_step by done. rewrite <- (take_drop c l) at 3.
  rewrite !elem_of_app. unfold with_ad.
  intros [Hx|Hx].
  - case_decide; [|by left; left].
    apply elem_of_app in Hx as [?|Hx]; [by left; left|].
    right. by apply list_elem_of_singleton in Hx.
  - destruct (IH Hx) as [?|?]; [left; by right|by right].
Qed.

Lemma create_playlist_entries fuel g tracks ad c out p :
  0 < c →
  create_playlist fuel g tracks (Some ad) c = Some out →
  p ∈ playlist_of out → p ∈ tracks ∨ p = ad.
Proof.
  intros Hc (_ & _ & Hplaylist)%create_playlist_inv Hp.
  pose proof (insert_ads_interleaved (shuffle g tracks).2 (Some ad) c
                (S (length (shuffle g tracks).2)) Hc (Nat.lt_succ_diag_r _)) as Hfull.
  unfold insert_ads in *.
  rewrite (while_loop_deterministic _ _ _ _ _ _ _ _ Hplaylist Hfull) in Hp.
  apply interleaved_elem in Hp as [Hp|Hp]; [|by right|lia].
  left. by rewrite (shuffle_perm g tracks) in Hp.
Qed.

Section Lines.
Variable fs : FileSystem.
Variable MutagenFile : Path → result (option float).

Lemma choose_done_listed instruction values required directory w p w' :
  choose fs instruction values required directory w = (Done p, w') →
  p ∈ iterdir fs directory.
Proof.
  intros (name & _ & _ & Hnamed & _)%choose_done_inv.
  assert (p ∈ named fs directory name) as Hp
    by (rewrite Hnamed; apply list_elem_of_singleton; reflexivity).
  unfold named in Hp. by apply list_elem_of_filter in Hp as [_ ?].
Qed.

(** When every entry that a listing returns is the listed directory
    joined with a name, a run that writes the playlist writes lines that
    are all of the form folder, slash, file name, for entries two levels
    below the music directory: the lines are relative to the music
    directory. *)
Theorem main_lines_are_relative_to_the_music_directory fuel ad_every
    music_directory playlist_directory w w' :
  (∀ directory p, p ∈ iterdir fs directory →
     ∃ name, p = Path.joinpath directory name) →
  main fs MutagenFile fuel ad_every music_directory playlist_directory w
  = (Done (), w') →
  let file := Path.str (Path.joinpath playlist_directory "jukebox.m3u") in
  (Printed NoAudioFilesFound ∈ log w' ∧ files w' = files w)
  ∨ ∃ playlist lines,
      Total playlist ∈ log w'
      ∧ entry_lines playlist = Ok lines
      ∧ files w' = <[file := String.concat newline lines]> (files w)
      ∧ Forall2 (λ p line, ∃ folder name,
                   p = Path.joinpath (Path.joinpath music_directory folder) name
                   ∧ line = (folder +:+ "/" +:+ name)%string)
          playlist lines.
Proof.
  intros Hfs Hrun file. revert Hrun. unfold main.
  destruct (ad_every <? 0); [done|].
  destruct (negb (path_exists fs music_directory)); [done|].
  destruct (negb (path_exists fs playlist_directory)); [done|].
  intros (ads_folder & w1 & H1 & Hrun)%bind_done.
  apply bind_done in Hrun as (ad_file & w2 & H2 & Hrun).
  apply bind_done in Hrun as (music_folder & w3 & H3 & Hrun).
  apply bind_done in Hrun as ([] & w4 & [= <-] & Hrun).
  pose proof (choose_done _ _ _ _ _ _ _ _ H1) as Hf1.
  pose proof (choose_done _ _ _ _ _ _ _ _ H2) as Hf2.
  pose proof (choose_done _ _ _ _ _ _ _ _ H3) as Hf3.
  apply choose_done_listed, Hfs in H1 as [n1 ->].
  apply choose_done_listed, Hfs in H2 as [n2 ->].
  apply choose_done_listed, Hfs in H3 as [n3 ->].
  destruct (get_audio_files fs _) as [|track tracks] eqn:Htracks.
  { left. injection Hrun as <-. cbn [log files]. split; [set_solver|congruence]. }
  right.
  assert (∀ p, p ∈ track :: tracks →
               ∃ name, p = Path.joinpath (Path.joinpath music_directory n3) name)
    as Htrack.
  { intros p Hp. rewrite <- Htracks in Hp. unfold get_audio_files in Hp.
    rewrite sorted_perm in Hp. apply list_elem_of_filter in Hp as [_ Hp].
    by apply Hfs. }
  apply build_and_write_done in Hrun
    as (avg_duration & playlist & _ & Htotal & Hfiles & Hplaylist).
  exists playlist, ((λ p, Path.str (from_grandparent p)) <$> playlist).
  split_and!.
  - done.
  - apply entry_lines_ok.
  - rewrite Hfiles. cbn [files]. by rewrite Hf3, Hf2, Hf1.
  - assert (∀ p, p ∈ playlist →
                 ∃ folder name,
                   p = Path.joinpath (Path.joinpath music_directory folder) name)
      as Hshape.
    { intros p Hp. destruct Hplaylist as [[_ ->]|[_ (c & out & Hcadence & Hout & ->)]].
      - destruct (Htrack p Hp) as [name ->]. by eexists _, _.
      - assert (0 < c) as Hc by (apply cadence_at_least_1 in Hcadence; lia).
        destruct (create_playlist_entries _ _ _ _ _ _ p Hc Hout Hp) as [Hp'| ->].
        + destruct (Htrack p Hp') as [name ->]. by eexists _, _.
        + by eexists _, _. }
    apply Forall2_fmap_r, Forall_Forall2_diag, Forall_forall.
    intros p Hp. destruct (Hshape p Hp) as (folder & name & ->).
    exists folder, name. split; [done|].
    pose proof (entry_line_two_levels music_directory folder name) as Hline.
    unfold entry_line in Hline. rewrite relative_to_grandparent in Hline.
    by injection Hline.
Qed.
End Lines.

Lemma main_lines_are_relative_to_the_music_directory_witness :
  ∃ w', main Sample.fs Sample.oracle 4 15 Sample.music Sample.playlists
          (MkWorld Sample.picks_all ∅ Sample.source []) = (Done (), w')
    ∧ files w' !! "/srv/playlists/jukebox.m3u"%string
      = Some (String.concat newline ["rock/b.mp3"; "rock/c.mp3"; "rock/a.mp3"]%string).
Proof.
  destruct (main Sample.fs Sample.oracle 4 15 Sample.music Sample.playlists
              (MkWorld Sample.picks_all ∅ Sample.source []))
    as [o w'] eqn:Hrun.
  assert (o = Done ()) as -> by (vm_compute in Hrun; by injection Hrun as <- _).
  assert (∀ directory p, p ∈ iterdir Sample.fs directory →
            ∃ name, p = Path.joinpath directory name) as Hfs.
  { intros directory p. cbn [iterdir Sample.fs].
    destruct (decide (directory = Sample.music)) as [->|_];
      [|destruct (decide (directory = Sample.ads)) as [->|_];
        [|destruct (decide (directory = Sample.rock)) as [->|_]]];
      intros Hp.
    - apply elem_of_cons in Hp as [->|Hp]; [by exists "ads"%string|].
      apply list_elem_of_singleton in Hp as ->. by exists "rock"%string.
    - apply list_elem_of_singleton in Hp as ->. by exists "jingle.mp3"%string.
    - apply elem_of_cons in Hp as [->|Hp]; [by exists "c.mp3"%string|].
      apply elem_of_cons in Hp as [->|Hp]; [by exists "notes.txt"%string|].
      apply elem_of_cons in Hp as [->|Hp]; [by exists "a.mp3"%string|].
      apply list_elem_of_singleton in Hp as ->. by exists "b.mp3"%string.
    - apply elem_of_nil in Hp. destruct Hp. }
  destruct (main_lines_are_relative_to_the_music_directory _ _ _ _ _ _ _ _ Hfs Hrun)
    as [_|_]; exists w'; (split; [reflexivity|]);
    vm_compute in Hrun; injection Hrun as <-; vm_compute; reflexivity.
Defined.
